(** * A shallow embedding of celtic_knots' [CKnot::CreateThread]

    Source: src/cknot.cpp, src/cknot.hpp, src/spline.hpp, src/saver.cpp.

    Modelling conventions.
    - [vec2] has integer coordinates.  Stroke endpoints and junction
      positions are in input units.  A stroke midpoint [a + (b - a) / 2] is
      stored doubled, as [a + b], and an emitted thread point in quarter
      units, so every equality, lexicographic and angular comparison the
      code performs on doubles is performed exactly here (all of them are
      invariant under a positive scaling of both sides).
    - [Junction*] pointers are [Ptr]s handed out by an allocator [alloc]:
      the k-th [new Junction] returns [alloc k].  Pointer equality is
      equality of [Ptr]s and [p->field] is a lookup in the heap.
    - [std::set<Node>] is a list kept sorted by [Node::operator<], whose key
      is (midpoint, direction); [std::map<vec2, Junction*>] an association
      list.
    - A failed [assert] is the error [AssertFailed]; the unbounded loops are
      run with fuel, and running out of it is the separate error [OutOfFuel].
    - Cross-type tangents [vec2(cos t, sin t) * |normal| * 1.3] are kept
      symbolic ([TRot]); the other tangents are exact vectors times a
      decimal factor ([TScale]). *)

From Stdlib Require Import ZArith NArith QArith Qabs Qround Lqa List Bool Lia Sorting Permutation.
Import ListNotations.

Open Scope Z_scope.

(** ** Geometry primitives (struct vec2) *)

Record vec2 := V2 { vx : Z; vy : Z }.

Definition vadd (u v : vec2) : vec2 := V2 (vx u + vx v) (vy u + vy v).
Definition vsub (u v : vec2) : vec2 := V2 (vx u - vx v) (vy u - vy v).
Definition vscale (c : Z) (u : vec2) : vec2 := V2 (c * vx u) (c * vy u).

(** [vec2::operator==] *)
Definition vec2_eqb (u v : vec2) : bool := (vx u =? vx v) && (vy u =? vy v).

Definition vec2_dec (u v : vec2) : {u = v} + {u <> v}.
Proof. decide equality; apply Z.eq_dec. Defined.

(** [vec2::operator<]: by x, then by y. *)
Definition vec2_ltb (u v : vec2) : bool :=
  if vx u =? vx v then vy u <? vy v else vx u <? vx v.

(** Half-plane class of [atan2(y, x)] on (-pi, pi]: 0 for (-pi, 0),
    1 for the angle 0 (also [atan2(0, 0) = 0]), 2 for (0, pi), 3 for pi. *)
Definition angle_class (u : vec2) : Z :=
  if vy u <? 0 then 0
  else if vy u =? 0 then (if vx u <? 0 then 3 else 1)
  else 2.

(** [atan2(u) < atan2(v)], decided exactly: by half-plane class, and
    inside the open half-planes by the sign of the cross product. *)
Definition atan2_ltb (u v : vec2) : bool :=
  let cu := angle_class u in
  let cv := angle_class v in
  if cu =? cv then
    (if (cu =? 0) || (cu =? 2) then 0 <? vx u * vy v - vy u * vx v else false)
  else cu <? cv.

(** The cross product [u.x * v.y - u.y * v.x]. *)
Definition cross (u v : vec2) : Z := vx u * vy v - vy u * vx v.

(** ** Strokes *)

Inductive StrokeType := Cross | Bounce | Glance.

Definition stroke_type_eqb (s t : StrokeType) : bool :=
  match s, t with
  | Cross, Cross | Bounce, Bounce | Glance, Glance => true
  | _, _ => false
  end.

Record Stroke := MkStroke { sa : vec2; sb : vec2; stype : StrokeType }.

(** [Stroke::GetMid], doubled. *)
Definition GetMid2 (s : Stroke) : vec2 := vadd (sa s) (sb s).

(** [vec2 normal = b - a; normal = vec2(-normal.y, normal.x);] *)
Definition stroke_normal (s : Stroke) : vec2 :=
  let n := vsub (sb s) (sa s) in V2 (- vy n) (vx n).

(** ** Direction algebra (enum Dir, BounceDir, CrossDir, GlanceDir) *)

Inductive Dir := fLeft | fRight | bLeft | bRight.

Definition dir_index (d : Dir) : Z :=
  match d with fLeft => 0 | fRight => 1 | bLeft => 2 | bRight => 3 end.

Definition dir_eqb (d e : Dir) : bool := dir_index d =? dir_index e.

Definition BounceDir (d : Dir) : Dir :=
  match d with
  | fLeft => bLeft | fRight => bRight | bRight => fRight | bLeft => fLeft
  end.

Definition CrossDir (d : Dir) : Dir :=
  match d with
  | fLeft => bRight | fRight => bLeft | bRight => fLeft | bLeft => fRight
  end.

Definition GlanceDir (d : Dir) : Dir :=
  match d with
  | fLeft => fRight | fRight => fLeft | bRight => bLeft | bLeft => bRight
  end.

(** The [switch (cur.type)] that moves a node to its exit direction. *)
Definition type_dir (t : StrokeType) (d : Dir) : Dir :=
  match t with
  | Bounce => BounceDir d
  | Cross => CrossDir d
  | Glance => GlanceDir d
  end.

(** ** Nodes and node sets *)

Definition Ptr := N.

Record Node := MkNode {
  mid : vec2;          (* doubled midpoint *)
  dir : Dir;
  type : StrokeType;
  normal : vec2;
  left : Ptr;
  right : Ptr
}.

Definition set_dir (n : Node) (d : Dir) : Node :=
  MkNode (mid n) d (type n) (normal n) (left n) (right n).

(** [Node(mid, dir)]: type [Cross], a zero normal; the pointers are left
    uninitialised by the constructor, here 0.  Such a node is only used as a
    search key. *)
Definition key_node (m : vec2) (d : Dir) : Node :=
  MkNode m d Cross (V2 0 0) 0%N 0%N.

Definition key := (vec2 * Dir)%type.

Definition node_key (n : Node) : key := (mid n, dir n).

Definition key_eqb (k l : key) : bool :=
  vec2_eqb (fst k) (fst l) && dir_eqb (snd k) (snd l).

(** [Node::operator<] *)
Definition key_ltb (k l : key) : bool :=
  if vec2_eqb (fst k) (fst l) then dir_index (snd k) <? dir_index (snd l)
  else vec2_ltb (fst k) (fst l).

Definition NodeSet := list Node.

(** [set.count(k)] *)
Definition ns_count (k : key) (s : NodeSet) : bool :=
  existsb (fun n => key_eqb (node_key n) k) s.

(** [set.find(k)] *)
Definition ns_find (k : key) (s : NodeSet) : option Node :=
  find (fun n => key_eqb (node_key n) k) s.

(** [set.erase(k)] *)
Definition ns_erase (k : key) (s : NodeSet) : NodeSet :=
  filter (fun n => negb (key_eqb (node_key n) k)) s.

Fixpoint ns_insert_sorted (n : Node) (s : NodeSet) : NodeSet :=
  match s with
  | [] => [n]
  | m :: r =>
      if key_ltb (node_key m) (node_key n) then m :: ns_insert_sorted n r
      else n :: m :: r
  end.

(** [set.insert(n)]: no effect when an element with the same key exists. *)
Definition ns_insert (n : Node) (s : NodeSet) : NodeSet :=
  if ns_count (node_key n) s then s else ns_insert_sorted n s.

(** ** Junctions (struct Junction) *)

Record Junction := MkJunction { position : vec2; mids : list vec2 }.

(** The heap of allocated junctions, and [std::map<vec2, Junction*>]. *)
Definition Heap := list (Ptr * Junction).
Definition JunctionMap := list (vec2 * Ptr).

Definition heap_get (p : Ptr) (h : Heap) : option Junction :=
  option_map snd (find (fun e => N.eqb (fst e) p) h).

Definition heap_update (p : Ptr) (f : Junction -> Junction) (h : Heap) : Heap :=
  map (fun e => if N.eqb (fst e) p then (fst e, f (snd e)) else e) h.

(** [p->mids] and [p->position]. *)
Definition jmids (h : Heap) (p : Ptr) : list vec2 :=
  match heap_get p h with Some j => mids j | None => [] end.

Definition jpos (h : Heap) (p : Ptr) : vec2 :=
  match heap_get p h with Some j => position j | None => V2 0 0 end.

Definition jm_get (v : vec2) (m : JunctionMap) : option Ptr :=
  option_map snd (find (fun e => vec2_eqb (fst e) v) m).

(** [Junction::FindNext]: [std::find] gives the first occurrence of [v];
    [split_find] returns the elements before and after it. *)
Fixpoint split_find (v : vec2) (l : list vec2) : option (list vec2 * list vec2) :=
  match l with
  | [] => None
  | x :: r =>
      if vec2_eqb x v then Some ([], r)
      else option_map (fun pa => (x :: fst pa, snd pa)) (split_find v r)
  end.

Definition FindNext (ms : list vec2) (v : vec2) (clockwise : bool) : vec2 :=
  match split_find v ms with
  | None => v
  | Some (before, after) =>
      if clockwise then
        (* ++it; if (it == mids.end()) it = mids.begin(); *)
        match after with y :: _ => y | [] => hd v ms end
      else
        (* if (it == mids.begin()) it = mids.end(); --it; *)
        match rev before with y :: _ => y | [] => last ms v end
  end.

(** [std::list::sort] is a stable sort; this is a stable insertion sort. *)
Fixpoint insert_by {A} (lt : A -> A -> bool) (x : A) (l : list A) : list A :=
  match l with
  | [] => [x]
  | y :: r => if lt y x then y :: insert_by lt x r else x :: y :: r
  end.

Fixpoint sort_by {A} (lt : A -> A -> bool) (l : list A) : list A :=
  match l with
  | [] => []
  | x :: r => insert_by lt x (sort_by lt r)
  end.

(** [VecAngleComp(point)]: compares [Stroke(point, lhs).GetAngle()] with
    [Stroke(point, rhs).GetAngle()]; [lhs] and [rhs] are doubled
    midpoints, so the point is doubled too. *)
Definition VecAngleComp (point : vec2) (lhs rhs : vec2) : bool :=
  atan2_ltb (vsub lhs (vscale 2 point)) (vsub rhs (vscale 2 point)).

(** ** Graph construction (struct Graph) *)

Record Graph := MkGraph {
  unused : NodeSet;
  junctions : JunctionMap;
  heap : Heap;
  nalloc : nat
}.

Definition empty_graph : Graph := MkGraph [] [] [] 0.

Section Alloc.

(** The allocator behind [new Junction]. *)
Variable alloc : nat -> Ptr.

(** [if (junctions.count(a)) ja = junctions[a];
     else junctions[a] = (ja = new Junction);] *)
Definition get_or_new (a : vec2) (g : Graph) : Ptr * Graph :=
  match jm_get a (junctions g) with
  | Some ja => (ja, g)
  | None =>
      let ja := alloc (nalloc g) in
      (ja, MkGraph (unused g) (junctions g ++ [(a, ja)])
                   ((ja, MkJunction (V2 0 0) []) :: heap g) (S (nalloc g)))
  end.

(** [ja->position = a; ja->mids.push_back(mid);] *)
Definition attach (ja : Ptr) (a m : vec2) (g : Graph) : Graph :=
  MkGraph (unused g) (junctions g)
          (heap_update ja (fun j => MkJunction a (mids j ++ [m])) (heap g))
          (nalloc g).

(** [//Sort junctions.] *)
Definition sort_junctions (g : Graph) : Graph :=
  MkGraph (unused g) (junctions g)
    (fold_left (fun h e =>
        heap_update (snd e)
          (fun j => MkJunction (position j)
                      (sort_by (VecAngleComp (position j)) (mids j))) h)
       (junctions g) (heap g))
    (nalloc g).

(** The four nodes of a stroke, in the order they are inserted. *)
Definition insert_ports (n : Node) (s : NodeSet) : NodeSet :=
  ns_insert (set_dir n bRight)
    (ns_insert (set_dir n bLeft)
       (ns_insert (set_dir n fRight) (ns_insert (set_dir n fLeft) s))).

(** One iteration of the loop of [Graph::Graph]. *)
Definition add_stroke (g : Graph) (s : Stroke) : Graph :=
  let m := GetMid2 s in
  let nrm := stroke_normal s in
  let '(ja, g1) := get_or_new (sa s) g in
  let g2 := attach ja (sa s) m g1 in
  let '(jb, g3) := get_or_new (sb s) g2 in
  let g4 := attach jb (sb s) m g3 in
  let n := MkNode m fLeft (stype s) nrm ja jb in
  sort_junctions (MkGraph (insert_ports n (unused g4)) (junctions g4)
                          (heap g4) (nalloc g4)).

Definition build_graph (strokes : list Stroke) : Graph :=
  fold_left add_stroke strokes empty_graph.

End Alloc.

(** ** Results: failed assertions and fuel *)

Inductive error := AssertFailed | OutOfFuel.

Inductive res (A : Type) := Ok (a : A) | Err (e : error).
Arguments Ok {A} a.
Arguments Err {A} e.

Definition bind {A B} (r : res A) (k : A -> res B) : res B :=
  match r with Ok a => k a | Err e => Err e end.

Notation "x <- c ;; k" := (bind c (fun x => k))
  (at level 61, c at next level, right associativity).

(** [assert(b)] *)
Definition assert (b : bool) : res unit := if b then Ok tt else Err AssertFailed.

(** ** The traversal (CreateThread) *)

(** Tangents pushed into [angles].  [TRot n k] is
    [vec2(cos t, sin t) * |n| * 1.3] with [t = atan2(n) + k * 45 degrees];
    [TScale v c] is [v * (c / 10)]. *)
Inductive tangent :=
| TRot (n : vec2) (k : Z)
| TScale (v : vec2) (tenths : Z).

Definition is_front (d : Dir) : bool := dir_eqb d fLeft || dir_eqb d fRight.
Definition is_left (d : Dir) : bool := dir_eqb d fLeft || dir_eqb d bLeft.

(** [//Add the thread point and normals.]: the point (in quarter units) and
    tangent emitted for the exit node [cur]. *)
Definition emit (h : Heap) (cur : Node) : vec2 * tangent :=
  let m4 := vscale 2 (mid cur) in
  let lr := vsub (jpos h (left cur)) (jpos h (right cur)) in
  match type cur with
  | Cross =>
      (m4, TRot (normal cur)
                (match dir cur with fLeft => 1 | bLeft => 3 | bRight => -3 | fRight => -1 end))
  | Glance =>
      (vadd m4 (vscale (if is_front (dir cur) then 1 else -1) (normal cur)),
       TScale lr (if is_left (dir cur) then 3 else -3))
  | Bounce =>
      (vadd m4 (vscale (if is_left (dir cur) then 1 else -1) lr),
       TScale (normal cur) (if is_front (dir cur) then 3 else -3))
  end.

(** One pass through a midpoint: the sample pushed into [zs], [thread] and
    [angles], together with the entry and exit nodes it erased. *)
Record Pass := MkPass {
  p_z : bool;
  p_point : vec2;
  p_tangent : tangent;
  p_entry : Node;
  p_exit : Node
}.

(** [if (up == false && cur.type == Cross) { ... }] *)
Definition mark_crossed (cur : Node) (up : bool) (u uu : NodeSet) : res NodeSet :=
  if negb up && stroke_type_eqb (type cur) Cross then
    let above := set_dir cur (GlanceDir (dir cur)) in
    if ns_count (node_key above) u then
      let uu1 := ns_insert above uu in
      let above2 := set_dir above (CrossDir (dir above)) in
      _ <- assert (ns_count (node_key above2) u);;
      Ok (ns_insert above2 uu1)
    else Ok uu
  else Ok uu.

(** [unusedUp.erase(cur); assert(g.unused.count(cur)); g.unused.erase(cur);] *)
Definition consume (cur : Node) (u uu : NodeSet) : res (NodeSet * NodeSet) :=
  let uu1 := ns_erase (node_key cur) uu in
  _ <- assert (ns_count (node_key cur) u);;
  Ok (ns_erase (node_key cur) u, uu1).

(** [Junction* j = (cur.dir == fLeft || cur.dir == bLeft) ? cur.left : cur.right;] *)
Definition entry_junction (cur : Node) : Ptr :=
  if is_left (dir cur) then left cur else right cur.

(** [if (cur.type != Bounce) j = (j == cur.right) ? cur.left : cur.right;] *)
Definition exit_junction (cur : Node) (j : Ptr) : Ptr :=
  if stroke_type_eqb (type cur) Bounce then j
  else if N.eqb j (right cur) then left cur else right cur.

(** [const bool clockwise = cur.dir == fLeft || cur.dir == bRight;] *)
Definition is_clockwise (d : Dir) : bool := dir_eqb d fLeft || dir_eqb d bRight.

(** The entry into the next midpoint [next] at junction [j]; [None] is
    [break]. *)
Definition select_next (u : NodeSet) (next : vec2) (clockwise : bool) (j : Ptr)
  : option Node :=
  let d := if clockwise then fRight else bRight in
  match ns_find (next, d) u with
  | None => ns_find (next, CrossDir d) u
  | Some it =>
      if negb (N.eqb (right it) j) then
        let c := set_dir it (CrossDir (dir it)) in
        if ns_count (node_key c) u then Some c else None
      else Some it
  end.

(** Lines 456-462: from the entry node [cur], the exit junction [j], the
    midpoint [next] found there and the [clockwise] flag. *)
Definition next_target (h : Heap) (cur : Node) : Ptr * vec2 * bool :=
  let ex := set_dir cur (type_dir (type cur) (dir cur)) in
  let j := exit_junction ex (entry_junction cur) in
  let cw := is_clockwise (dir ex) in
  (j, FindNext (jmids h j) (mid ex) cw, cw).

(** One iteration of the inner [while(true)] loop. *)
Definition body (h : Heap) (cur : Node) (up : bool) (u uu : NodeSet)
  : res (Pass * option Node * bool * NodeSet * NodeSet) :=
  uu1 <- mark_crossed cur up u uu;;
  r2 <- consume cur u uu1;;
  let ex := set_dir cur (type_dir (type cur) (dir cur)) in
  r3 <- consume ex (fst r2) (snd r2);;
  let up' := if stroke_type_eqb (type ex) Cross then negb up else up in
  let e := emit h ex in
  let '(j, next, cw) := next_target h cur in
  Ok (MkPass up (fst e) (snd e) cur ex, select_next (fst r3) next cw j, up',
      fst r3, snd r3).

(** The inner loop: the passes of one thread. *)
Fixpoint trace (fuel : nat) (h : Heap) (cur : Node) (up : bool) (u uu : NodeSet)
  : res (list Pass * NodeSet * NodeSet) :=
  match fuel with
  | O => Err OutOfFuel
  | S f =>
      r <- body h cur up u uu;;
      let '(p, nxt, up', u', uu') := r in
      match nxt with
      | None => Ok ([p], u', uu')
      | Some c =>
          r' <- trace f h c up' u' uu';;
          let '(ps, u'', uu'') := r' in Ok (p :: ps, u'', uu'')
      end
  end.

(** ** Packaging (Spline::Hermite and Spline::Step objects) *)

(** [Art::Thread(xs, &thread.front(), &angles.front(), frames + 1, true)] *)
Record Thread := MkThread {
  th_xs : list Q; th_ys : list vec2; th_ms : list tangent; th_n : nat; th_loop : bool
}.

(** [Art::Z(xs, &zs.front(), frames + 1, true)] *)
Record Zc := MkZc { z_xs : list Q; z_ys : list Q; z_n : nat; z_loop : bool }.

(** [xs[i] = double(i) / double(frames)] for [i < frames], [xs[frames] = 1.0]. *)
Definition knot_xs (frames : nat) : list Q :=
  map (fun i => Qred (Z.of_nat i # Pos.of_nat frames)) (seq 0 frames) ++ [1%Q].

(** [v.push_back(v.front())] *)
Definition close_loop {A} (d : A) (l : list A) : list A := l ++ [hd d l].

Definition z_value (up : bool) : Q := if up then 1%Q else 0%Q.

Definition make_thread (ps : list Pass) : Thread :=
  let frames := length ps in
  MkThread (knot_xs frames)
           (close_loop (V2 0 0) (map p_point ps))
           (close_loop (TScale (V2 0 0) 0) (map p_tangent ps))
           (S frames) true.

Definition make_z (ps : list Pass) : Zc :=
  let frames := length ps in
  MkZc (knot_xs frames) (close_loop 0%Q (map (fun p => z_value (p_z p)) ps))
       (S frames) true.

(** [g.unused.size() || unusedUp.size()] *)
Definition outer_cond (u uu : NodeSet) : bool :=
  (0 <? length u)%nat || (0 <? length uu)%nat.

(** [Node cur = unusedUp.size() ? *unusedUp.begin() : *g.unused.begin();
     if (unusedUp.size()) up = true;] ([*begin()] of an empty set is
    undefined; the model yields a key node there). *)
Definition start_node (u uu : NodeSet) : Node * bool :=
  match uu with
  | c :: _ => (c, true)
  | [] => (hd (key_node (V2 0 0) fLeft) u, false)
  end.

(** The outer loop.  [ret] and [retZs] are the vectors of the source; [log]
    records the passes of every thread. *)
Fixpoint run (fuel : nat) (h : Heap) (u uu : NodeSet)
    (ret : list Thread) (retZs : list Zc) (log : list (list Pass))
  : res (list Thread * list Zc * list (list Pass)) :=
  match fuel with
  | O => Err OutOfFuel
  | S f =>
      if outer_cond u uu then
        let '(cur, up) := start_node u uu in
        r <- trace (S (length u)) h cur up u uu;;
        let '(ps, u', uu') := r in
        run f h u' uu' (ret ++ [make_thread ps]) (retZs ++ [make_z ps]) (log ++ [ps])
      else Ok (ret, retZs, log)
  end.

Definition run_graph (g : Graph) : res (list Thread * list Zc * list (list Pass)) :=
  run (S (length (unused g))) (heap g) (unused g) [] [] [] [].

(** [class Art] *)
Record Art := MkArt { mThreads : list Thread; mZs : list Zc }.

Definition GetThreadCount (a : Art) : nat := length (mThreads a).

Definition CreateThread (alloc : nat -> Ptr) (strokes : list Stroke) : res Art :=
  r <- run_graph (build_graph alloc strokes);;
  let '(ret, retZs, _) := r in Ok (MkArt ret retZs).

(** ** Evaluation of an [Art::Z] curve (spline.hpp)

    [Art::Z] is [Spline::Step], a [LocalSpline<Function::NearestNeighbor>].
    Its cache [mLastIndex] is never initialised by the constructor, so the
    evaluation takes it as an argument and returns its new value.  The
    [double] arithmetic of spline.hpp is taken in [Q]: rounding is not
    modelled. *)

(** [Function::Imod]; [%] on [int] truncates, as [Z.rem]. *)
Definition Imod (i j : Z) : Z :=
  if Z.rem i j <? 0 then Z.rem i j + Z.abs j else Z.rem i j.

Definition Qltb (a b : Q) : bool := negb (Qle_bool b a).

(** [Function::Mod] *)
Definition Mod (i start end_ : Q) : res Q :=
  let range := (end_ - start)%Q in
  let d0 := Qabs ((i - start) / range)%Q in
  let d1 := (d0 - inject_Z (Qfloor d0))%Q in
  let d2 := (d1 * range)%Q in
  let d := if Qle_bool start i then (d2 + start)%Q else (end_ - d2)%Q in
  _ <- assert (Qle_bool start d);;
  _ <- assert (Qltb d end_);;
  Ok d.

(** [Spline::GetX] and [Spline::GetY]: the index loops around. *)
Definition GetX (z : Zc) (index : Z) : Q :=
  nth (Z.to_nat (Imod index (Z.of_nat (z_n z)))) (z_xs z) 0%Q.

Definition GetY (z : Zc) (index : Z) : Q :=
  nth (Z.to_nat (Imod index (Z.of_nat (z_n z)))) (z_ys z) 0%Q.

(** [Spline::LoopInRange]: [Mod(x, mXs[0], mXs[mN-1])]. *)
Definition LoopInRange (z : Zc) (x : Q) : res Q :=
  Mod x (nth 0 (z_xs z) 0%Q) (nth (pred (z_n z)) (z_xs z) 0%Q).

(** The [while (true)] search of [Spline::GetIndex]. *)
Fixpoint search_index (fuel : nat) (z : Zc) (x : Q) (i : Z) : res Z :=
  match fuel with
  | O => Err OutOfFuel
  | S f =>
      let i := Imod i (Z.of_nat (z_n z)) in
      let current := GetX z i in
      let next := GetX z (i + 1) in
      if Qle_bool current x then
        if Qltb x next then Ok i
        else if (i =? Z.of_nat (z_n z) - 2) && negb (z_loop z) then Ok i
        else search_index f z x (i + 1)
      else if (i =? 0) && negb (z_loop z) then Ok i
      else search_index f z x (i - 1)
  end.

(** [Spline::GetIndex], starting from the cached index [last]. *)
Definition GetIndex (z : Zc) (last : Z) (x : Q) : res Z :=
  x' <- (if z_loop z then LoopInRange z x else Ok x);;
  search_index (S (z_n z)) z x' last.

(** [Spline::GetSubRange] *)
Definition GetSubRange (z : Zc) (index : Z) (x : Q) : res Q :=
  d <- (if z_loop z then LoopInRange z x else Ok x);;
  let sr := GetX z index in
  let er := GetX z (index + 1) in
  Ok ((d - sr) / (er - sr))%Q.

(** [LocalSpline<NearestNeighbor>::Y]: the value and the new [mLastIndex]. *)
Definition Step_Y (z : Zc) (last : Z) (x : Q) : res (Q * Z) :=
  i <- GetIndex z last x;;
  t <- GetSubRange z i x;;
  Ok (if Qltb t (1 # 2)%Q then GetY z i else GetY z (i + 1), i).

(** ** The Hermite basis of spline.hpp and its derivative

    [Spline::Function] (the name [Function] is a keyword of Rocq). *)

Module SplineFunction.

Local Open Scope Q_scope.

(** Hermite basis functions. *)
Definition h1 (t : Q) : Q := let t2 := t * t in let t3 := t2 * t in 2 * t3 - 3 * t2 + 1.
Definition h2 (t : Q) : Q := let t2 := t * t in let t3 := t2 * t in -2 * t3 + 3 * t2.
Definition h3 (t : Q) : Q := let t2 := t * t in let t3 := t2 * t in t3 - 2 * t2 + t.
Definition h4 (t : Q) : Q := let t2 := t * t in let t3 := t2 * t in t3 - t2.

(** [Function::Hermite] *)
Definition Hermite (m0 y0 y1 m1 t : Q) : Q :=
  m0 * h3 t + y0 * h1 t + y1 * h2 t + m1 * h4 t.

End SplineFunction.

(** [Spline::Derivatives] *)
Module Derivatives.

Local Open Scope Q_scope.

Definition h1 (t : Q) : Q := let t2 := t * t in 6 * t2 - 6 * t.
Definition h2 (t : Q) : Q := let t2 := t * t in 6 * t - 6 * t2.
Definition h3 (t : Q) : Q := let t2 := t * t in 3 * t2 - 4 * t + 1.
Definition h4 (t : Q) : Q := let t2 := t * t in 3 * t2 - 2 * t.

Definition Hermite (m0 y0 y1 m1 t : Q) : Q :=
  m0 * h3 t + y0 * h1 t + y1 * h2 t + m1 * h4 t.

End Derivatives.

(** The constructor [Spline::Spline]: [assert(mN > 1)], then (without
    NDEBUG) [assert(mXs[i] > last); last = mXs[i];] for [i = 1 .. n-1]. *)
Fixpoint check_knots (xs : list Q) (last : Q) (i k : nat) : res unit :=
  match k with
  | O => Ok tt
  | S k' =>
      _ <- assert (Qltb last (nth i xs 0%Q));;
      check_knots xs (nth i xs 0%Q) (S i) k'
  end.

Definition Spline_new (xs : list Q) (n : nat) : res unit :=
  _ <- assert (1 <? n)%nat;;
  check_knots xs (nth 0 xs 0%Q) 1 (n - 1).

(** ** The stroke generators and the drawing of saver.cpp

    [rand()] is an input: [rnd k] is the [k]-th draw of the function at
    hand. *)

(** [RandomType]: [rand() % 15] is [0] for Bounce, [1] for Glance. *)
Definition RandomType (r : Z) : StrokeType :=
  let r := Z.rem r 15 in
  if r =? 0 then Bounce else if r =? 1 then Glance else Cross.

(** The junction [(x, y)] of [CreateSquareStrokes]: its coordinates
    [x / junctionsX * width] and [y / junctionsY * height] are computed once
    per column and row and are strictly increasing in [x] and [y], so the
    grid indices stand for them. *)
Definition grid_point (x y : nat) : vec2 := V2 (Z.of_nat x) (Z.of_nat y).

(** The two nested loops of [CreateSquareStrokes] over the cells [(x, y)]
    in loop order; [k] counts the draws of [RandomType]. *)
Fixpoint square_loop (jX jY : nat) (rnd : nat -> Z) (cells : list (nat * nat)) (k : nat)
  : list Stroke :=
  match cells with
  | [] => []
  | (x, y) :: r =>
      if negb (x + 1 =? jX)%nat then
        let h := MkStroke (grid_point x y) (grid_point (x + 1) y) (RandomType (rnd k)) in
        if negb (y + 1 =? jY)%nat then
          h :: MkStroke (grid_point x y) (grid_point x (y + 1)) (RandomType (rnd (S k)))
            :: square_loop jX jY rnd r (S (S k))
        else h :: square_loop jX jY rnd r (S k)
      else if negb (y + 1 =? jY)%nat then
        MkStroke (grid_point x y) (grid_point x (y + 1)) (RandomType (rnd k))
          :: square_loop jX jY rnd r (S k)
      else square_loop jX jY rnd r k
  end.

(** [CreateSquareStrokes], with [junctionsX] and [junctionsY] as inputs:
    [for (x = 1; x < junctionsX; ++x) for (y = 1; y < junctionsY; ++y)]. *)
Definition CreateSquareStrokes (jX jY : nat) (rnd : nat -> Z) : list Stroke :=
  square_loop jX jY rnd (list_prod (seq 1 (jX - 1)) (seq 1 (jY - 1))) 0.

(** The first loop of [RemoveStrokes]: [if (rand() < delThres) erase]. *)
Fixpoint del_random (delThres : Z) (rnd : nat -> Z) (i : nat) (l : list Stroke) : list Stroke :=
  match l with
  | [] => []
  | s :: r =>
      if rnd i <? delThres then del_random delThres rnd (S i) r
      else s :: del_random delThres rnd (S i) r
  end.

(** The ends [a] and [b] of every stroke, counted in [sCount]. *)
Definition stroke_ends (l : list Stroke) : list vec2 := flat_map (fun s => [sa s; sb s]) l.

(** [RemoveStrokes]: random deletion, then removal of the strokes with an
    end that no other stroke end meets ([sCount] is computed once, before
    the second loop). *)
Definition RemoveStrokes (delThres : Z) (rnd : nat -> Z) (input : list Stroke) : list Stroke :=
  let sl := del_random delThres rnd 0 input in
  let sCount := count_occ vec2_dec (stroke_ends sl) in
  filter (fun s => negb ((sCount (sa s) =? 1)%nat || (sCount (sb s) =? 1)%nat)) sl.

(** The vertex range of a thread drawn by [DoAnim], for [count] vertices
    and [q = artTime / DrawTime]: [progress = size_t(min(q, 1) * count / 2)],
    [assert(progress <= count / 2)], [start = count / 2 - progress],
    [start += start % 2]; the result is [(start, progress * 2)]. *)
Definition draw_range (count : nat) (q : Q) : res (nat * nat) :=
  let m := if Qltb 1 q then 1%Q else q in
  let progress := Z.to_nat (Qfloor (m * inject_Z (Z.of_nat count) / 2)) in
  _ <- assert (progress <=? count / 2)%nat;;
  let start := (count / 2 - progress)%nat in
  let start := (start + start mod 2)%nat in
  Ok (start, (progress * 2)%nat).

(** ** Loop heads of a run

    The states of [CreateThread] at its loop conditions: [u] is [g.unused],
    [uu] is [unusedUp], and [pos] is [None] at the outer condition and
    [Some (cur, up)] at the top of the inner loop. *)
Inductive loop_head (alloc : nat -> Ptr) (strokes : list Stroke)
  : NodeSet -> NodeSet -> option (Node * bool) -> Prop :=
| lh_init :
    loop_head alloc strokes (unused (build_graph alloc strokes)) [] None
| lh_start u uu :
    loop_head alloc strokes u uu None ->
    outer_cond u uu = true ->
    loop_head alloc strokes u uu (Some (start_node u uu))
| lh_next u uu cur up p c up' u' uu' :
    loop_head alloc strokes u uu (Some (cur, up)) ->
    body (heap (build_graph alloc strokes)) cur up u uu
      = Ok (p, Some c, up', u', uu') ->
    loop_head alloc strokes u' uu' (Some (c, up'))
| lh_break u uu cur up p up' u' uu' :
    loop_head alloc strokes u uu (Some (cur, up)) ->
    body (heap (build_graph alloc strokes)) cur up u uu
      = Ok (p, None, up', u', uu') ->
    loop_head alloc strokes u' uu' None.

(** The loop heads of a run in execution order: [lh_step] goes from one
    loop condition to the next one evaluated, and [reach n] is the state
    after [n] steps (a state without successor is kept). *)
Definition lh_state : Type := (NodeSet * NodeSet * option (Node * bool))%type.

Definition lh_step (alloc : nat -> Ptr) (strokes : list Stroke) (s : lh_state) : lh_state :=
  let '(u, uu, pos) := s in
  match pos with
  | None => if outer_cond u uu then (u, uu, Some (start_node u uu)) else s
  | Some (cur, up) =>
      match body (heap (build_graph alloc strokes)) cur up u uu with
      | Ok (_, Some c, up', u', uu') => (u', uu', Some (c, up'))
      | Ok (_, None, _, u', uu') => (u', uu', None)
      | Err _ => s
      end
  end.

Definition reach (alloc : nat -> Ptr) (strokes : list Stroke) (n : nat) : lh_state :=
  Nat.iter n (lh_step alloc strokes) (unused (build_graph alloc strokes), [], None).

(** * Definitions used by the proofs *)

(** [Node::operator<] as a relation. *)
Definition key_lt (k l : key) : Prop := key_ltb k l = true.

(** A node set is sorted by key, as [std::set<Node>] keeps it. *)
Definition key_sorted (s : NodeSet) : Prop :=
  StronglySorted (fun a b => key_lt (node_key a) (node_key b)) s.

(** ** The invariant of the traversal *)

(** All nodes of one midpoint carry the same stroke data. *)
Definition consistent (s : NodeSet) : Prop :=
  forall n m, In n s -> In m s -> mid n = mid m ->
    type n = type m /\ normal n = normal m /\ left n = left m /\ right n = right m.

(** Every node's exit partner is present as well. *)
Definition pair_closed (s : NodeSet) : Prop :=
  forall n, In n s -> ns_count (mid n, type_dir (type n) (dir n)) s = true.

Record Inv (u uu : NodeSet) : Prop := {
  inv_sorted : key_sorted u;
  inv_consistent : consistent u;
  inv_pair : pair_closed u;
  inv_sub : forall n, In n uu -> In n u
}.

Definition exit_node (cur : Node) : Node :=
  set_dir cur (type_dir (type cur) (dir cur)).

(** The keys erased by a list of passes, entry then exit for each. *)
Definition consumed (ps : list Pass) : list key :=
  flat_map (fun p => [node_key (p_entry p); node_key (p_exit p)]) ps.

(** The port set built by [Graph::Graph]: sorted, one stroke per midpoint,
    all four directions of every midpoint. *)
Definition full (s : NodeSet) : Prop :=
  forall n d, In n s -> ns_count (mid n, d) s = true.

Record BInv (s : NodeSet) : Prop := {
  b_sorted : key_sorted s;
  b_consistent : consistent s;
  b_full : full s
}.

(** ** Renaming junction pointers

    [rn_*] apply a map [f] on pointers to every pointer a value holds; the
    allocations of two runs are related by such a renaming. *)

Definition rn_node (f : Ptr -> Ptr) (n : Node) : Node :=
  MkNode (mid n) (dir n) (type n) (normal n) (f (left n)) (f (right n)).

Definition rn_set (f : Ptr -> Ptr) (s : NodeSet) : NodeSet := map (rn_node f) s.

Definition rn_heap (f : Ptr -> Ptr) (h : Heap) : Heap :=
  map (fun e => (f (fst e), snd e)) h.

Definition rn_jmap (f : Ptr -> Ptr) (m : JunctionMap) : JunctionMap :=
  map (fun e => (fst e, f (snd e))) m.

Definition rn_graph (f : Ptr -> Ptr) (g : Graph) : Graph :=
  MkGraph (rn_set f (unused g)) (rn_jmap f (junctions g)) (rn_heap f (heap g)) (nalloc g).

Definition rn_pass (f : Ptr -> Ptr) (p : Pass) : Pass :=
  MkPass (p_z p) (p_point p) (p_tangent p) (rn_node f (p_entry p)) (rn_node f (p_exit p)).

Definition res_map {A B} (g : A -> B) (r : res A) : res B :=
  match r with Ok a => Ok (g a) | Err e => Err e end.

(** The renaming from the addresses [N.of_nat n] to the addresses of [alloc]. *)
Definition alloc_rn (alloc : nat -> Ptr) (p : Ptr) : Ptr := alloc (N.to_nat p).

(** An allocator that never hands out the same address twice. *)
Definition injective (alloc : nat -> Ptr) : Prop :=
  forall m n, alloc m = alloc n -> m = n.

(** Strictly increasing knots, as the constructor of [Spline] asserts them. *)
Definition increasing (xs : list Q) (n : nat) : Prop :=
  forall j, (S j < n)%nat -> (nth j xs 0 < nth (S j) xs 0)%Q.

(** [j] is the knot interval [[xs[j], xs[j+1])] of [z] that contains [x]. *)
Definition bracket (z : Zc) (x : Q) (j : nat) : Prop :=
  (j <= z_n z - 2)%nat /\ (nth j (z_xs z) 0 <= x < nth (S j) (z_xs z) 0)%Q.

(** The four direction tags. *)
Definition all_dirs : list Dir := [fLeft; fRight; bLeft; bRight].

(** ** Example meshes *)

(** One isolated stroke. *)
Definition single_stroke : list Stroke := [MkStroke (V2 0 0) (V2 2 0) Cross].

(** Four Cross strokes meeting at the junction (1,1). *)
Definition plus_strokes : list Stroke :=
  [MkStroke (V2 1 1) (V2 1 0) Cross; MkStroke (V2 1 1) (V2 2 1) Cross;
   MkStroke (V2 1 1) (V2 1 2) Cross; MkStroke (V2 1 1) (V2 0 1) Cross].

(** The graph of the plus-shaped mesh and the start node of its first thread. *)
Definition plus_graph : Graph := build_graph N.of_nat plus_strokes.

Definition plus_start : Node := fst (start_node (unused plus_graph) []).

(** The two diagonals of a square: two strokes with one midpoint. *)
Definition x_strokes : list Stroke :=
  [MkStroke (V2 0 0) (V2 2 2) Cross; MkStroke (V2 0 2) (V2 2 0) Cross].

(** Four Cross strokes around the square with corners (0,0) and (2,2): the
    first thread ends with crossed-from-below nodes left over. *)
Definition square_strokes : list Stroke :=
  [MkStroke (V2 0 0) (V2 2 0) Cross; MkStroke (V2 2 0) (V2 2 2) Cross;
   MkStroke (V2 2 2) (V2 0 2) Cross; MkStroke (V2 0 2) (V2 0 0) Cross].

(** * Basic facts *)

Lemma vec2_eqb_eq u v : vec2_eqb u v = true <-> u = v.
Proof.
  destruct u as [ux uy], v as [vx' vy']; unfold vec2_eqb; simpl.
  rewrite andb_true_iff, !Z.eqb_eq; split.
  - intros [-> ->]; reflexivity.
  - intros H; injection H; auto.
Qed.

Lemma dir_eqb_eq d e : dir_eqb d e = true <-> d = e.
Proof.
  destruct d, e; unfold dir_eqb; simpl; split; intro H; try discriminate; auto.
Qed.

Lemma key_eqb_eq k l : key_eqb k l = true <-> k = l.
Proof.
  destruct k as [m d], l as [m' d']; unfold key_eqb; simpl.
  rewrite andb_true_iff, vec2_eqb_eq, dir_eqb_eq; split.
  - intros [-> ->]; reflexivity.
  - intros H; injection H; auto.
Qed.

Lemma key_eqb_refl k : key_eqb k k = true.
Proof. apply key_eqb_eq; reflexivity. Qed.

Lemma key_eqb_false k l : key_eqb k l = false <-> k <> l.
Proof.
  rewrite <- key_eqb_eq; destruct (key_eqb k l); split; congruence.
Qed.

Lemma stroke_type_eqb_eq s t : stroke_type_eqb s t = true <-> s = t.
Proof. destruct s, t; simpl; split; congruence. Qed.

Lemma dir_index_inj d e : dir_index d = dir_index e -> d = e.
Proof. destruct d, e; simpl; congruence. Qed.

Lemma type_dir_invol t d : type_dir t (type_dir t d) = d.
Proof. destruct t, d; reflexivity. Qed.

Lemma type_dir_neq t d : type_dir t d <> d.
Proof. destruct t, d; simpl; discriminate. Qed.

Lemma type_dir_inj t d e : type_dir t d = type_dir t e -> d = e.
Proof.
  intros H. rewrite <- (type_dir_invol t d), <- (type_dir_invol t e), H.
  reflexivity.
Qed.

Lemma set_dir_key n d : node_key (set_dir n d) = (mid n, d).
Proof. reflexivity. Qed.

(** ** The order of [Node::operator<] is a strict total order on keys *)

Lemma key_ltb_irrefl k : key_ltb k k = false.
Proof.
  destruct k as [m d]; unfold key_ltb; simpl.
  rewrite (proj2 (vec2_eqb_eq m m) eq_refl). apply Z.ltb_irrefl.
Qed.

Lemma vec2_ltb_spec u v :
  vec2_ltb u v = true <-> (vx u < vx v \/ (vx u = vx v /\ vy u < vy v)).
Proof.
  unfold vec2_ltb. destruct (Z.eqb_spec (vx u) (vx v)).
  - rewrite Z.ltb_lt; lia.
  - rewrite Z.ltb_lt; lia.
Qed.

Lemma key_ltb_spec k l :
  key_ltb k l = true <->
  (vec2_ltb (fst k) (fst l) = true \/
   (fst k = fst l /\ dir_index (snd k) < dir_index (snd l))).
Proof.
  destruct k as [[a b] d], l as [[a' b'] d']; unfold key_ltb; simpl.
  destruct (vec2_eqb (V2 a b) (V2 a' b')) eqn:E.
  - apply vec2_eqb_eq in E. injection E; intros; subst.
    rewrite Z.ltb_lt, vec2_ltb_spec; simpl. split.
    + intros H; right; split; [reflexivity | exact H].
    + intros [H|[_ H]]; [lia | exact H].
  - rewrite vec2_ltb_spec; simpl. split; [tauto|].
    intros [H|[H _]]; [exact H|]. rewrite H, (proj2 (vec2_eqb_eq _ _) eq_refl) in E.
    discriminate.
Qed.

Lemma key_ltb_trans k l m : key_lt k l -> key_lt l m -> key_lt k m.
Proof.
  unfold key_lt; rewrite !key_ltb_spec, !vec2_ltb_spec.
  destruct k as [[a b] d], l as [[a' b'] d'], m as [[a'' b''] d'']; simpl.
  intros H1 H2.
  destruct H1 as [H1|[H1 H1']], H2 as [H2|[H2 H2']];
    try (injection H1; intros; subst); try (injection H2; intros; subst);
    first [left; lia | right; split; [reflexivity | lia]].
Qed.

Lemma key_ltb_total k l : k <> l -> key_lt k l \/ key_lt l k.
Proof.
  unfold key_lt; rewrite !key_ltb_spec, !vec2_ltb_spec.
  destruct k as [[a b] d], l as [[a' b'] d']; simpl. intros Hne.
  destruct (Z.lt_trichotomy a a') as [H|[H|H]];
    [left; left; lia| subst | right; left; lia].
  destruct (Z.lt_trichotomy b b') as [H|[H|H]];
    [left; left; lia| subst | right; left; lia].
  destruct (Z.lt_trichotomy (dir_index d) (dir_index d')) as [H|[H|H]];
    [left; right; auto| |right; right; auto].
  apply dir_index_inj in H; subst. congruence.
Qed.

(** * C3: the direction algebra *)

(** C3. Each of BounceDir, CrossDir and GlanceDir is an involution on the
    four directions, and none of them returns its argument. *)
Theorem dir_algebra_involutive (d : Dir) :
  BounceDir (BounceDir d) = d /\ CrossDir (CrossDir d) = d /\
  GlanceDir (GlanceDir d) = d /\
  BounceDir d <> d /\ CrossDir d <> d /\ GlanceDir d <> d.
Proof. destruct d; repeat split; discriminate. Qed.

(** * Node sets *)

Lemma ns_count_spec k s :
  ns_count k s = true <-> exists n, In n s /\ node_key n = k.
Proof.
  unfold ns_count. rewrite existsb_exists.
  split; intros [n [Hn Hk]]; exists n; split; auto; apply key_eqb_eq; auto.
Qed.

Lemma ns_count_false k s :
  ns_count k s = false <-> forall n, In n s -> node_key n <> k.
Proof.
  destruct (ns_count k s) eqn:E; split; intros H; try discriminate; auto.
  - apply ns_count_spec in E. destruct E as [n [Hn Hk]]. exfalso; exact (H n Hn Hk).
  - intros n Hn Hk. assert (ns_count k s = true) by (apply ns_count_spec; eauto).
    congruence.
Qed.

Lemma ns_count_In n s : In n s -> ns_count (node_key n) s = true.
Proof. intros H; apply ns_count_spec; eauto. Qed.

Lemma In_ns_erase x k s : In x (ns_erase k s) <-> In x s /\ node_key x <> k.
Proof.
  unfold ns_erase. rewrite filter_In, negb_true_iff, key_eqb_false. tauto.
Qed.

Lemma ns_count_erase k k' s :
  ns_count k (ns_erase k' s) = true <-> ns_count k s = true /\ k <> k'.
Proof.
  rewrite !ns_count_spec. split.
  - intros [n [Hn Hk]]. apply In_ns_erase in Hn. destruct Hn.
    split; [eauto | congruence].
  - intros [[n [Hn Hk]] Hne]. exists n. rewrite In_ns_erase. subst; auto.
Qed.

Lemma ns_find_some k s n : ns_find k s = Some n -> In n s /\ node_key n = k.
Proof.
  unfold ns_find; intros H. apply find_some in H. destruct H as [H1 H2].
  split; auto. apply key_eqb_eq; auto.
Qed.

Lemma ns_find_none k s : ns_find k s = None -> ns_count k s = false.
Proof.
  unfold ns_find; intros H. apply ns_count_false. intros n Hn Hk.
  pose proof (find_none _ _ H n Hn) as E. cbv beta in E.
  rewrite Hk, key_eqb_refl in E.
  discriminate.
Qed.

Lemma In_ns_insert_sorted x n s : In x (ns_insert_sorted n s) <-> x = n \/ In x s.
Proof.
  induction s as [|m r IH]; simpl.
  - intuition (subst; auto).
  - destruct (key_ltb (node_key m) (node_key n)); simpl; rewrite ?IH;
      intuition (subst; auto).
Qed.

Lemma In_ns_insert x n s : In x (ns_insert n s) -> x = n \/ In x s.
Proof.
  unfold ns_insert. destruct (ns_count (node_key n) s); auto.
  apply In_ns_insert_sorted.
Qed.

Lemma In_ns_insert_r x n s : In x s -> In x (ns_insert n s).
Proof.
  unfold ns_insert. destruct (ns_count (node_key n) s); auto.
  intros H; apply In_ns_insert_sorted; auto.
Qed.

Lemma ns_insert_new n s :
  ns_count (node_key n) s = false -> In n (ns_insert n s).
Proof.
  unfold ns_insert; intros ->. apply In_ns_insert_sorted; auto.
Qed.

Lemma ns_insert_old n s : ns_count (node_key n) s = true -> ns_insert n s = s.
Proof. unfold ns_insert; intros ->; reflexivity. Qed.

(** ** Sortedness by key *)

Lemma key_sorted_filter f s : key_sorted s -> key_sorted (filter f s).
Proof.
  unfold key_sorted. induction s as [|a r IH]; simpl; intros H; auto.
  inversion H as [|? ? Hr Hall]; subst.
  destruct (f a); auto. constructor; auto.
  apply Forall_forall. intros x Hx. apply filter_In in Hx.
  rewrite Forall_forall in Hall. apply Hall; tauto.
Qed.

Lemma key_sorted_erase k s : key_sorted s -> key_sorted (ns_erase k s).
Proof. apply key_sorted_filter. Qed.

Lemma key_sorted_insert_sorted n s :
  key_sorted s -> (forall m, In m s -> node_key m <> node_key n) ->
  key_sorted (ns_insert_sorted n s).
Proof.
  unfold key_sorted. induction s as [|m r IH]; simpl; intros Hs Hne.
  - repeat constructor.
  - inversion Hs as [|? ? Hr Hall]; subst. rewrite Forall_forall in Hall.
    destruct (key_ltb (node_key m) (node_key n)) eqn:E.
    + constructor; [apply IH; auto|]. apply Forall_forall.
      intros x Hx. apply In_ns_insert_sorted in Hx.
      destruct Hx as [->|Hx]; [exact E | auto].
    + assert (Hnm : key_lt (node_key n) (node_key m)).
      { destruct (key_ltb_total (node_key n) (node_key m)) as [H|H]; auto.
        - intro Heq; apply (Hne m); auto.
        - unfold key_lt in H; congruence. }
      constructor; [exact Hs|].
      constructor; [exact Hnm|]. apply Forall_forall. intros x Hx.
      eapply key_ltb_trans; [exact Hnm | auto].
Qed.

Lemma key_sorted_insert n s : key_sorted s -> key_sorted (ns_insert n s).
Proof.
  unfold ns_insert. destruct (ns_count (node_key n) s) eqn:E; auto.
  intros Hs; apply key_sorted_insert_sorted; auto.
  apply ns_count_false; auto.
Qed.

Lemma key_sorted_NoDup s : key_sorted s -> NoDup (map node_key s).
Proof.
  unfold key_sorted. induction s as [|a r IH]; simpl; intros H; constructor.
  - inversion H as [|? ? Hr Hall]; subst. rewrite Forall_forall in Hall.
    intros Hin. apply in_map_iff in Hin. destruct Hin as [x [Hx Hin]].
    specialize (Hall x Hin). unfold key_lt in Hall.
    rewrite Hx, key_ltb_irrefl in Hall. discriminate.
  - inversion H; auto.
Qed.

Lemma filter_keep_all {A} (f : A -> bool) l :
  (forall x, In x l -> f x = true) -> filter f l = l.
Proof.
  induction l as [|a r IH]; simpl; intros H; auto.
  rewrite (H a (or_introl eq_refl)), IH; auto.
Qed.

Lemma keys_erase_perm k s :
  NoDup (map node_key s) -> ns_count k s = true ->
  Permutation (map node_key s) (k :: map node_key (ns_erase k s)).
Proof.
  induction s as [|a r IH]; simpl; intros Hnd Hc; [discriminate|].
  apply NoDup_cons_iff in Hnd. destruct Hnd as [Hnin Hnd].
  unfold ns_erase; simpl.
  destruct (key_eqb (node_key a) k) eqn:E; simpl.
  - apply key_eqb_eq in E. subst k.
    rewrite filter_keep_all; [reflexivity|].
    intros x Hx. apply negb_true_iff, key_eqb_false. intros Heq.
    apply Hnin. rewrite <- Heq. apply in_map; auto.
  - apply IH in Hc; auto.
    eapply perm_trans; [apply perm_skip, Hc|]. apply perm_swap.
Qed.

(** * The invariant of the traversal *)

Lemma consistent_sub s s' :
  (forall x, In x s' -> In x s) -> consistent s -> consistent s'.
Proof. intros Hs H n m Hn Hm; apply H; auto. Qed.

Lemma consistent_set_dir s n d :
  consistent s -> In n s -> ns_count (mid n, d) s = true -> In (set_dir n d) s.
Proof.
  intros Hc Hn Hcount. apply ns_count_spec in Hcount.
  destruct Hcount as [m [Hm Hk]]. unfold node_key in Hk. injection Hk as Hmid Hd.
  destruct (Hc n m Hn Hm (eq_sym Hmid)) as [Ht [Hnr [Hl Hr]]].
  destruct n, m; simpl in *; subst. exact Hm.
Qed.

Lemma mark_crossed_ok cur up u uu :
  Inv u uu -> In cur u ->
  exists uu1, mark_crossed cur up u uu = Ok uu1 /\ (forall n, In n uu1 -> In n u).
Proof.
  intros HI Hcur. unfold mark_crossed.
  destruct (negb up && stroke_type_eqb (type cur) Cross) eqn:Ec;
    [|exists uu; split; [reflexivity | apply (inv_sub _ _ HI)]].
  apply andb_true_iff in Ec. destruct Ec as [_ Ec]. apply stroke_type_eqb_eq in Ec.
  destruct (ns_count (node_key (set_dir cur (GlanceDir (dir cur)))) u) eqn:Ea;
    [|exists uu; split; [reflexivity | apply (inv_sub _ _ HI)]].
  assert (Habove : In (set_dir cur (GlanceDir (dir cur))) u).
  { apply consistent_set_dir; [apply (inv_consistent _ _ HI)| exact Hcur| exact Ea]. }
  pose proof (inv_pair _ _ HI _ Habove) as Hp. simpl in Hp. rewrite Ec in Hp.
  simpl in Hp.
  assert (Hcnt : ns_count (node_key (set_dir (set_dir cur (GlanceDir (dir cur)))
                    (CrossDir (dir (set_dir cur (GlanceDir (dir cur))))))) u = true)
    by exact Hp.
  rewrite Hcnt. simpl.
  eexists; split; [reflexivity|].
  intros n Hn. apply In_ns_insert in Hn. destruct Hn as [->|Hn].
  - apply consistent_set_dir; [apply (inv_consistent _ _ HI)| exact Habove| exact Hp].
  - apply In_ns_insert in Hn. destruct Hn as [->|Hn]; auto.
    apply (inv_sub _ _ HI); auto.
Qed.

Lemma consume_ok cur u uu :
  ns_count (node_key cur) u = true ->
  consume cur u uu = Ok (ns_erase (node_key cur) u, ns_erase (node_key cur) uu).
Proof. unfold consume; intros ->; reflexivity. Qed.

Lemma exit_node_count u cur :
  pair_closed u -> In cur u ->
  ns_count (node_key (exit_node cur)) (ns_erase (node_key cur) u) = true.
Proof.
  intros Hp Hcur. apply ns_count_erase. split.
  - apply Hp; auto.
  - unfold exit_node, node_key; simpl. intros H; injection H.
    apply type_dir_neq.
Qed.

Lemma Inv_erase_pair u uu cur :
  Inv u uu -> In cur u ->
  Inv (ns_erase (node_key (exit_node cur)) (ns_erase (node_key cur) u))
      (ns_erase (node_key (exit_node cur)) (ns_erase (node_key cur) uu)).
Proof.
  intros HI Hcur.
  assert (Hsub : forall x, In x (ns_erase (node_key (exit_node cur))
                                  (ns_erase (node_key cur) u)) -> In x u).
  { intros x Hx. apply In_ns_erase in Hx. destruct Hx as [Hx _].
    apply In_ns_erase in Hx. tauto. }
  constructor.
  - apply key_sorted_erase, key_sorted_erase, (inv_sorted _ _ HI).
  - eapply consistent_sub; [exact Hsub| apply (inv_consistent _ _ HI)].
  - intros n Hn. pose proof (Hsub n Hn) as Hn0.
    apply In_ns_erase in Hn. destruct Hn as [Hn Hne2].
    apply In_ns_erase in Hn. destruct Hn as [_ Hne1].
    apply ns_count_erase. split; [apply ns_count_erase; split|].
    + apply (inv_pair _ _ HI); auto.
    + intros Heq. unfold node_key in Heq. injection Heq as Hm Hd.
      destruct (inv_consistent _ _ HI n cur Hn0 Hcur Hm) as [Ht _].
      apply Hne2. unfold exit_node, node_key; simpl. rewrite Hm, <- Ht, <- Hd.
      rewrite type_dir_invol. reflexivity.
    + intros Heq. unfold exit_node, node_key in Heq; simpl in Heq.
      injection Heq as Hm Hd.
      destruct (inv_consistent _ _ HI n cur Hn0 Hcur Hm) as [Ht _].
      rewrite Ht in Hd. apply type_dir_inj in Hd.
      apply Hne1. unfold node_key. rewrite Hm, Hd. reflexivity.
  - intros n Hn. apply In_ns_erase in Hn. destruct Hn as [Hn Hne2].
    apply In_ns_erase in Hn. destruct Hn as [Hn Hne1].
    apply In_ns_erase; split; [apply In_ns_erase; split|]; auto.
    apply (inv_sub _ _ HI); auto.
Qed.

Lemma select_next_In u next cw j c :
  consistent u -> select_next u next cw j = Some c -> In c u.
Proof.
  intros Hc. unfold select_next.
  destruct (ns_find (next, if cw then fRight else bRight) u) as [it|] eqn:E.
  - apply ns_find_some in E. destruct E as [Hit _].
    destruct (negb (N.eqb (right it) j)).
    + destruct (ns_count (node_key (set_dir it (CrossDir (dir it)))) u) eqn:E2;
        [|discriminate].
      intros H; injection H as <-. apply consistent_set_dir; auto.
    + intros H; injection H as <-; exact Hit.
  - intros H. apply ns_find_some in H. tauto.
Qed.

Lemma body_ok h cur up u uu :
  Inv u uu -> In cur u ->
  exists nxt up' uu',
    body h cur up u uu =
      Ok (MkPass up (fst (emit h (exit_node cur))) (snd (emit h (exit_node cur)))
                 cur (exit_node cur),
          nxt, up', ns_erase (node_key (exit_node cur)) (ns_erase (node_key cur) u),
          uu') /\
    Inv (ns_erase (node_key (exit_node cur)) (ns_erase (node_key cur) u)) uu' /\
    (forall c, nxt = Some c ->
       In c (ns_erase (node_key (exit_node cur)) (ns_erase (node_key cur) u))).
Proof.
  intros HI Hcur.
  destruct (mark_crossed_ok cur up u uu HI Hcur) as [uu1 [Hm Hsub1]].
  assert (HI1 : Inv u uu1) by (destruct HI; constructor; auto).
  unfold body. rewrite Hm. simpl.
  rewrite (consume_ok cur u uu1 (ns_count_In cur u Hcur)). simpl.
  rewrite (consume_ok _ _ _ (exit_node_count u cur (inv_pair _ _ HI) Hcur)). simpl.
  destruct (next_target h cur) as [[j next] cw].
  pose proof (Inv_erase_pair u uu1 cur HI1 Hcur) as HI2.
  do 3 eexists. split; [reflexivity|]. split; [exact HI2|].
  intros c Hc. eapply select_next_In; [apply (inv_consistent _ _ HI2)| exact Hc].
Qed.

(** * The loops terminate and consume every port once *)

Lemma consumed_length ps : length (consumed ps) = (2 * length ps)%nat.
Proof. induction ps as [|p ps IH]; simpl; [reflexivity| rewrite IH; lia]. Qed.

Lemma keys_erase_pair_perm u cur :
  Inv u [] -> In cur u ->
  Permutation (map node_key u)
    ([node_key cur; node_key (exit_node cur)] ++
     map node_key (ns_erase (node_key (exit_node cur)) (ns_erase (node_key cur) u))).
Proof.
  intros HI Hcur. pose proof (key_sorted_NoDup _ (inv_sorted _ _ HI)) as Hnd.
  eapply perm_trans; [apply keys_erase_perm; [exact Hnd | apply ns_count_In; exact Hcur]|].
  simpl. apply perm_skip. apply keys_erase_perm.
  - apply key_sorted_NoDup, key_sorted_erase, (inv_sorted _ _ HI).
  - apply exit_node_count; [apply (inv_pair _ _ HI)| exact Hcur].
Qed.

Lemma Inv_nil u uu : Inv u uu -> Inv u [].
Proof. intros []; constructor; auto; intros n []. Qed.

Lemma trace_ok h fuel : forall cur up u uu,
  Inv u uu -> In cur u -> (length u < fuel)%nat ->
  exists ps u' uu',
    trace fuel h cur up u uu = Ok (ps, u', uu') /\ Inv u' uu' /\
    ps <> [] /\ (forall p, In p ps -> p_exit p = exit_node (p_entry p)) /\
    Permutation (map node_key u) (consumed ps ++ map node_key u').
Proof.
  induction fuel as [|f IH]; intros cur up u uu HI Hcur Hlen; [lia|].
  destruct (body_ok h cur up u uu HI Hcur) as [nxt [up' [uu' [Hb [HI' Hnxt]]]]].
  pose proof (keys_erase_pair_perm u cur (Inv_nil _ _ HI) Hcur) as Hperm.
  simpl. rewrite Hb. simpl. destruct nxt as [c|].
  - assert (Hlen' : (length (ns_erase (node_key (exit_node cur))
                               (ns_erase (node_key cur) u)) < f)%nat).
    { apply Permutation_length in Hperm. simpl in Hperm.
      rewrite !length_map in Hperm. lia. }
    destruct (IH c up' _ _ HI' (Hnxt c eq_refl) Hlen')
      as [ps [u2 [uu2 [Ht [HI2 [Hne [Hex Hp]]]]]]].
    rewrite Ht. simpl. exists (MkPass up (fst (emit h (exit_node cur)))
                                  (snd (emit h (exit_node cur))) cur (exit_node cur) :: ps).
    do 2 eexists. split; [reflexivity|]. split; [exact HI2|].
    split; [discriminate|]. split.
    + intros p [<-|Hp']; [reflexivity| auto].
    + eapply perm_trans; [exact Hperm|]. simpl. do 2 apply perm_skip. exact Hp.
  - do 3 eexists. split; [reflexivity|]. split; [exact HI'|].
    split; [discriminate|]. split.
    + intros p [<-|[]]; reflexivity.
    + exact Hperm.
Qed.

Lemma start_node_In u uu :
  Inv u uu -> outer_cond u uu = true -> In (fst (start_node u uu)) u.
Proof.
  intros HI Ho. unfold start_node. destruct uu as [|c uu].
  - unfold outer_cond in Ho. destruct u as [|n u]; simpl in *; [discriminate| auto].
  - apply (inv_sub _ _ HI). simpl; auto.
Qed.

Lemma run_ok h fuel : forall u uu ret retZs log,
  Inv u uu -> (length u < fuel)%nat ->
  exists new,
    run fuel h u uu ret retZs log =
      Ok (ret ++ map make_thread new, retZs ++ map make_z new, log ++ new) /\
    Forall (fun ps => ps <> [] /\
                      forall p, In p ps -> p_exit p = exit_node (p_entry p)) new /\
    Permutation (map node_key u) (flat_map consumed new).
Proof.
  induction fuel as [|f IH]; intros u uu ret retZs log HI Hlen; [lia|].
  cbn [run]. destruct (outer_cond u uu) eqn:Eo.
  - pose proof (start_node_In u uu HI Eo) as Hin.
    destruct (start_node u uu) as [cur up]. simpl in Hin.
    destruct (trace_ok h (S (length u)) cur up u uu HI Hin (Nat.lt_succ_diag_r _))
      as [ps [u' [uu' [Ht [HI' [Hne [Hex Hp]]]]]]].
    rewrite Ht. simpl.
    assert (Hlen' : (length u' < f)%nat).
    { apply Permutation_length in Hp. rewrite length_app, !length_map,
        consumed_length in Hp.
      destruct ps; [congruence| simpl in Hp; lia]. }
    destruct (IH u' uu' (ret ++ [make_thread ps]) (retZs ++ [make_z ps])
                 (log ++ [ps]) HI' Hlen') as [new [Hr [Hf Hperm]]].
    rewrite Hr. exists (ps :: new). rewrite <- !app_assoc. split; [reflexivity|].
    split; [constructor; auto|].
    simpl. eapply perm_trans; [exact Hp|]. apply Permutation_app_head. exact Hperm.
  - exists []. rewrite !app_nil_r. split; [reflexivity|]. split; [constructor|].
    unfold outer_cond in Eo. destruct u; [constructor| simpl in Eo; discriminate].
Qed.

(** * The port set built by [Graph::Graph] *)

Lemma unused_get_or_new alloc a g : unused (snd (get_or_new alloc a g)) = unused g.
Proof. unfold get_or_new. destruct (jm_get a (junctions g)); reflexivity. Qed.

Lemma unused_add_stroke alloc g s :
  exists ja jb,
    unused (add_stroke alloc g s) =
    insert_ports (MkNode (GetMid2 s) fLeft (stype s) (stroke_normal s) ja jb) (unused g).
Proof.
  unfold add_stroke.
  pose proof (unused_get_or_new alloc (sa s) g) as H1.
  destruct (get_or_new alloc (sa s) g) as [ja g1]. simpl in H1.
  pose proof (unused_get_or_new alloc (sb s) (attach ja (sa s) (GetMid2 s) g1)) as H3.
  destruct (get_or_new alloc (sb s) (attach ja (sa s) (GetMid2 s) g1)) as [jb g3].
  simpl in H3. exists ja, jb. simpl. rewrite H3. simpl. rewrite H1. reflexivity.
Qed.

Lemma ns_count_insert_r k x s : ns_count k s = true -> ns_count k (ns_insert x s) = true.
Proof.
  intros H. apply ns_count_spec in H. destruct H as [n [Hn Hk]].
  apply ns_count_spec. exists n. split; auto. apply In_ns_insert_r; auto.
Qed.

Lemma ns_count_insert_self x s : ns_count (node_key x) (ns_insert x s) = true.
Proof.
  destruct (ns_count (node_key x) s) eqn:E.
  - rewrite ns_insert_old; auto.
  - apply ns_count_In, ns_insert_new; auto.
Qed.

Lemma In_insert_ports y n s :
  In y (insert_ports n s) -> In y s \/ exists d, y = set_dir n d.
Proof.
  unfold insert_ports. intros H.
  repeat (apply In_ns_insert in H; destruct H as [->|H]; [right; eexists; reflexivity|]).
  left; exact H.
Qed.

Lemma In_insert_ports_r y n s : In y s -> In y (insert_ports n s).
Proof. intros H; unfold insert_ports; repeat apply In_ns_insert_r; exact H. Qed.

Lemma insert_ports_count_new n d s : ns_count (mid n, d) (insert_ports n s) = true.
Proof.
  unfold insert_ports.
  destruct d; rewrite <- set_dir_key;
    repeat first [apply ns_count_insert_self | apply ns_count_insert_r].
Qed.

Lemma insert_ports_count k n s :
  ns_count k (insert_ports n s) = true <-> ns_count k s = true \/ fst k = mid n.
Proof.
  split.
  - intros H. apply ns_count_spec in H. destruct H as [y [Hy Hk]].
    apply In_insert_ports in Hy. destruct Hy as [Hy|[d ->]].
    + left. apply ns_count_spec; eauto.
    + right. rewrite <- Hk. reflexivity.
  - intros [H|H].
    + apply ns_count_spec in H. destruct H as [y [Hy Hk]].
      apply ns_count_spec. exists y. split; auto. apply In_insert_ports_r; auto.
    + destruct k as [m d]. simpl in H; subst. apply insert_ports_count_new.
Qed.

(** Inserting a node of [n]'s stroke next to nodes of the same stroke only. *)
Lemma consistent_insert_same n d s :
  consistent s -> (forall m, In m s -> mid m = mid n -> exists e, m = set_dir n e) ->
  consistent (ns_insert (set_dir n d) s) /\
  (forall m, In m (ns_insert (set_dir n d) s) -> mid m = mid n ->
             exists e, m = set_dir n e).
Proof.
  intros Hc Hsame. split.
  - intros y z Hy Hz Hm.
    apply In_ns_insert in Hy; apply In_ns_insert in Hz.
    destruct Hy as [->|Hy], Hz as [->|Hz]; simpl in *.
    + repeat split.
    + destruct (Hsame z Hz (eq_sym Hm)) as [e ->]. repeat split.
    + destruct (Hsame y Hy Hm) as [e ->]. repeat split.
    + apply Hc; auto.
  - intros m Hm Hmid. apply In_ns_insert in Hm. destruct Hm as [->|Hm]; eauto.
Qed.

Lemma BInv_insert_ports n s : BInv s -> BInv (insert_ports n s).
Proof.
  intros [Hs Hc Hf]. constructor.
  - unfold insert_ports. repeat apply key_sorted_insert. exact Hs.
  - destruct (ns_count (mid n, fLeft) s) eqn:E.
    + (* the midpoint is already there: every insertion is a no-op *)
      apply ns_count_spec in E. destruct E as [m [Hm Hk]]. injection Hk as Hmid _.
      assert (Hall : forall d, ns_count (node_key (set_dir n d)) s = true).
      { intros d. rewrite set_dir_key, <- Hmid. apply Hf; auto. }
      unfold insert_ports.
      rewrite (ns_insert_old _ _ (Hall fLeft)), (ns_insert_old _ _ (Hall fRight)),
        (ns_insert_old _ _ (Hall bLeft)), (ns_insert_old _ _ (Hall bRight)).
      exact Hc.
    + assert (Hnone : forall m, In m s -> mid m = mid n -> exists e, m = set_dir n e).
      { intros m Hm Hmid. exfalso. pose proof (Hf m fLeft Hm) as H.
        rewrite Hmid, E in H. discriminate. }
      unfold insert_ports.
      destruct (consistent_insert_same n fLeft s Hc Hnone) as [C1 S1].
      destruct (consistent_insert_same n fRight _ C1 S1) as [C2 S2].
      destruct (consistent_insert_same n bLeft _ C2 S2) as [C3 S3].
      destruct (consistent_insert_same n bRight _ C3 S3) as [C4 S4].
      exact C4.
  - intros y d Hy. apply insert_ports_count.
    apply In_insert_ports in Hy. destruct Hy as [Hy|[e ->]].
    + left; apply Hf; auto.
    + right; reflexivity.
Qed.

Lemma build_fold_ok alloc strokes : forall g,
  BInv (unused g) ->
  BInv (unused (fold_left (add_stroke alloc) strokes g)) /\
  (forall k, ns_count k (unused (fold_left (add_stroke alloc) strokes g)) = true <->
             ns_count k (unused g) = true \/
             exists st, In st strokes /\ fst k = GetMid2 st).
Proof.
  induction strokes as [|st r IH]; intros g Hg; simpl.
  - split; auto. intros k; split; [auto| intros [H|[st [[] _]]]; auto].
  - destruct (unused_add_stroke alloc g st) as [ja [jb Hu]].
    assert (Hg' : BInv (unused (add_stroke alloc g st)))
      by (rewrite Hu; apply BInv_insert_ports; auto).
    destruct (IH _ Hg') as [HB Hk]. split; auto.
    intros k. rewrite Hk, Hu, insert_ports_count. simpl. split.
    + intros [[H|H]|[st' [H1 H2]]]; eauto.
    + intros [H|[st' [[<-|H1] H2]]]; eauto.
Qed.

Lemma build_graph_BInv alloc strokes :
  BInv (unused (build_graph alloc strokes)) /\
  (forall k, ns_count k (unused (build_graph alloc strokes)) = true <->
             exists st, In st strokes /\ fst k = GetMid2 st).
Proof.
  unfold build_graph.
  destruct (build_fold_ok alloc strokes empty_graph) as [HB Hk].
  - constructor; [constructor| intros n m []| intros n d []].
  - split; auto. intros k. rewrite Hk. simpl. split; [intros [H|H]; [discriminate|auto]| auto].
Qed.

Lemma build_graph_Inv alloc strokes : Inv (unused (build_graph alloc strokes)) [].
Proof.
  destruct (build_graph_BInv alloc strokes) as [[Hs Hc Hf] _].
  constructor; auto; [intros n Hn; apply Hf; auto| intros n []].
Qed.

(** * Whole runs *)

Lemma run_graph_ok alloc strokes :
  exists log,
    run_graph (build_graph alloc strokes) = Ok (map make_thread log, map make_z log, log) /\
    CreateThread alloc strokes = Ok (MkArt (map make_thread log) (map make_z log)) /\
    Forall (fun ps => ps <> [] /\
                      forall p, In p ps -> p_exit p = exit_node (p_entry p)) log /\
    Permutation (map node_key (unused (build_graph alloc strokes))) (flat_map consumed log).
Proof.
  destruct (run_ok (heap (build_graph alloc strokes))
              (S (length (unused (build_graph alloc strokes))))
              (unused (build_graph alloc strokes)) [] [] [] []
              (build_graph_Inv alloc strokes) (Nat.lt_succ_diag_r _))
    as [log [Hr [Hf Hp]]].
  exists log. unfold CreateThread, run_graph. rewrite Hr. simpl. auto.
Qed.

Lemma In_keys_count k s : In k (map node_key s) <-> ns_count k s = true.
Proof.
  rewrite ns_count_spec, in_map_iff. split; intros [n [H1 H2]]; eauto.
Qed.

Lemma NoDup_list_prod {A B} (l : list A) (l' : list B) :
  NoDup l -> NoDup l' -> NoDup (list_prod l l').
Proof.
  induction l as [|a l IH]; simpl; intros Hl Hl'; [constructor|].
  inversion Hl as [|? ? Ha Hl0]; subst.
  apply NoDup_app.
  - clear IH Hl Ha. induction Hl' as [|b l' Hb Hl' IH']; simpl; constructor; auto.
    rewrite in_map_iff. intros [b' [Hbb Hin]]. injection Hbb as ->. auto.
  - auto.
  - intros [x y] H1 H2. apply in_map_iff in H1. destruct H1 as [b [Hb _]].
    injection Hb as -> _. apply in_prod_iff in H2. tauto.
Qed.

Lemma all_dirs_In d : In d all_dirs.
Proof. destruct d; simpl; tauto. Qed.

Lemma NoDup_all_dirs : NoDup all_dirs.
Proof.
  repeat constructor; simpl; intuition discriminate.
Qed.

(** Two duplicate-free lists with the same elements have the same length. *)
Lemma NoDup_same_length {A} (l l' : list A) :
  NoDup l -> NoDup l' -> (forall x, In x l <-> In x l') -> length l = length l'.
Proof.
  intros H H' Hx. apply Nat.le_antisymm; apply NoDup_incl_length; auto;
    intros x; apply Hx.
Qed.

(** * Port conservation *)

(** C1 (amended): a run of [CreateThread] consumes every port of the initial
    port set exactly once over all its threads: the ports consumed (entry and
    exit port of every pass) have no duplicates, they are exactly the ports
    of the strokes' midpoints, and there are four per distinct midpoint,
    which is [4 * |strokes|] only when no two strokes share a midpoint. *)
Theorem ports_consumed_once alloc strokes :
  exists ret retZs log,
    run_graph (build_graph alloc strokes) = Ok (ret, retZs, log) /\
    NoDup (flat_map consumed log) /\
    (forall k, In k (flat_map consumed log) <->
               In k (map node_key (unused (build_graph alloc strokes)))) /\
    (forall k, In k (flat_map consumed log) <->
               exists st, In st strokes /\ fst k = GetMid2 st) /\
    length (flat_map consumed log) = (4 * length (nodup vec2_dec (map GetMid2 strokes)))%nat.
Proof.
  destruct (run_graph_ok alloc strokes) as [log [Hr [_ [_ Hp]]]].
  destruct (build_graph_BInv alloc strokes) as [[Hs _ _] Hk].
  pose proof (key_sorted_NoDup _ Hs) as Hnd.
  assert (Hin : forall k, In k (flat_map consumed log) <->
                          In k (map node_key (unused (build_graph alloc strokes)))).
  { intros k. split; apply Permutation_in; auto using Permutation_sym. }
  assert (Hin2 : forall k, In k (flat_map consumed log) <->
                           exists st, In st strokes /\ fst k = GetMid2 st).
  { intros k. rewrite Hin, In_keys_count. apply Hk. }
  exists (map make_thread log), (map make_z log), log.
  split; [exact Hr|]. split; [eapply Permutation_NoDup; eauto|].
  split; [exact Hin|]. split; [exact Hin2|].
  rewrite (NoDup_same_length _ (list_prod (nodup vec2_dec (map GetMid2 strokes)) all_dirs)).
  - rewrite length_prod. simpl. lia.
  - eapply Permutation_NoDup; eauto.
  - apply NoDup_list_prod; [apply NoDup_nodup| apply NoDup_all_dirs].
  - intros [m d]. rewrite Hin2, in_prod_iff, nodup_In, in_map_iff. simpl.
    split.
    + intros [st [H1 H2]]. split; [eauto| apply all_dirs_In].
    + intros [[st [H1 H2]] _]. eauto.
Qed.

(** * Samples of a thread *)

(** C2 (amended): for every thread of a run, the number of samples before
    the closing one is positive and is half the number of ports consumed
    while tracing it (each pass consumes its entry and its exit port and
    records one sample); a closing sample equal to the first is appended. *)
Theorem thread_samples_per_pass alloc strokes :
  exists log,
    CreateThread alloc strokes = Ok (MkArt (map make_thread log) (map make_z log)) /\
    Forall (fun ps =>
      (0 < pred (th_n (make_thread ps)))%nat /\
      length (consumed ps) = (2 * pred (th_n (make_thread ps)))%nat /\
      length (th_ys (make_thread ps)) = th_n (make_thread ps) /\
      nth (pred (th_n (make_thread ps))) (th_ys (make_thread ps)) (V2 0 0) =
        hd (V2 0 0) (th_ys (make_thread ps))) log.
Proof.
  destruct (run_graph_ok alloc strokes) as [log [_ [Hc [Hf _]]]].
  exists log. split; [exact Hc|].
  eapply Forall_impl; [|exact Hf]. intros ps [Hne _].
  unfold make_thread, close_loop; simpl.
  rewrite consumed_length, length_app, length_map. simpl.
  destruct ps as [|p ps]; [congruence|]. simpl length.
  split; [lia|]. split; [lia|]. split; [lia|].
  rewrite app_nth2; rewrite length_map; simpl length; [|lia].
  rewrite Nat.sub_diag. reflexivity.
Qed.

(** * Input handling *)

(** C4 (amended): [Graph::Graph] performs no validation: for every stroke
    list, including ones with zero-length or repeated strokes, the graph is
    built with the four ports of every stroke's midpoint and [CreateThread]
    returns an [Art]. *)
Theorem construction_accepts_all alloc strokes :
  (forall st d, In st strokes ->
     ns_count (GetMid2 st, d) (unused (build_graph alloc strokes)) = true) /\
  exists art, CreateThread alloc strokes = Ok art.
Proof.
  split.
  - intros st d Hst. apply (proj2 (build_graph_BInv alloc strokes)). eauto.
  - destruct (run_graph_ok alloc strokes) as [log [_ [Hc _]]]. eauto.
Qed.

(** * Threads and step curves *)

(** C10: the [Art] returned by [CreateThread] has one step curve per
    thread: both vectors have the same length, and for every index below
    [GetThreadCount] the thread and the curve exist and were built with the
    same sample count and knots. *)
Theorem threads_zs_aligned alloc strokes :
  exists art,
    CreateThread alloc strokes = Ok art /\
    length (mThreads art) = length (mZs art) /\
    forall i, (i < GetThreadCount art)%nat ->
      exists th zc, nth_error (mThreads art) i = Some th /\
                    nth_error (mZs art) i = Some zc /\
                    th_n th = z_n zc /\ th_xs th = z_xs zc.
Proof.
  destruct (run_graph_ok alloc strokes) as [log [_ [Hc _]]].
  exists (MkArt (map make_thread log) (map make_z log)).
  split; [exact Hc|]. unfold GetThreadCount; simpl.
  rewrite !length_map. split; [reflexivity|].
  intros i Hi.
  destruct (nth_error log i) as [ps|] eqn:E.
  - rewrite !nth_error_map, E. simpl. do 2 eexists. repeat split.
  - apply nth_error_None in E. lia.
Qed.

(** C1 counterexample: the two diagonals of a square share their
    midpoint, so the run consumes 4 ports, not [4 * 2]. *)
Lemma port_count_counterexample :
  match run_graph (build_graph N.of_nat x_strokes) with
  | Ok (_, _, log) =>
      length (flat_map consumed log) = 4%nat /\
      length (flat_map consumed log) <> (4 * length x_strokes)%nat
  | Err _ => False
  end.
Proof. vm_compute. split; [reflexivity| discriminate]. Qed.

(** C2 counterexample: one isolated stroke gives one thread of 2 samples
    (before the closing one) that consumes 4 ports. *)
Lemma sample_count_counterexample :
  match run_graph (build_graph N.of_nat single_stroke) with
  | Ok (ths, _, log) =>
      map (fun th => pred (th_n th)) ths = [2%nat] /\
      map (fun ps => length (consumed ps)) log = [4%nat]
  | Err _ => False
  end.
Proof. vm_compute. split; reflexivity. Qed.

(** C4 counterexample: a zero-length stroke, and a stroke given twice, are
    both accepted. *)
Lemma degenerate_input_counterexample :
  match CreateThread N.of_nat [MkStroke (V2 0 0) (V2 0 0) Cross] with
  | Ok art => GetThreadCount art = 1%nat
  | Err _ => False
  end /\
  match CreateThread N.of_nat [MkStroke (V2 0 0) (V2 2 0) Glance;
                               MkStroke (V2 0 0) (V2 2 0) Glance] with
  | Ok art => GetThreadCount art = 1%nat
  | Err _ => False
  end.
Proof. split; vm_compute; reflexivity. Qed.

(** * The loop heads of a run *)

Lemma loop_head_Inv alloc strokes u uu pos :
  loop_head alloc strokes u uu pos ->
  Inv u uu /\ (forall cur up, pos = Some (cur, up) -> In cur u).
Proof.
  induction 1 as [| u uu Hh [HI _] Ho
                  | u uu cur up p c up' u' uu' Hh [HI Hin] Hb
                  | u uu cur up p up' u' uu' Hh [HI Hin] Hb].
  - split; [apply build_graph_Inv| discriminate].
  - split; [exact HI|]. intros cur up Heq. injection Heq as Heq.
    pose proof (start_node_In u uu HI Ho) as H. rewrite Heq in H. exact H.
  - destruct (body_ok (heap (build_graph alloc strokes)) cur up u uu HI (Hin cur up eq_refl))
      as [nxt [up2 [uu2 [Hb' [HI' Hn]]]]].
    rewrite Hb' in Hb. injection Hb as _ Hnxt _ Hu Huu. subst.
    split; [exact HI'|]. intros c' up3 Heq. injection Heq as -> ->. auto.
  - destruct (body_ok (heap (build_graph alloc strokes)) cur up u uu HI (Hin cur up eq_refl))
      as [nxt [up2 [uu2 [Hb' [HI' Hn]]]]].
    rewrite Hb' in Hb. injection Hb as _ Hnxt _ Hu Huu. subst.
    split; [exact HI'| discriminate].
Qed.

Lemma lh_step_loop_head alloc strokes s :
  loop_head alloc strokes (fst (fst s)) (snd (fst s)) (snd s) ->
  let s' := lh_step alloc strokes s in
  loop_head alloc strokes (fst (fst s')) (snd (fst s')) (snd s').
Proof.
  destruct s as [[u uu] pos]. cbn [fst snd]. intros H. unfold lh_step.
  destruct pos as [[cur up]|].
  - destruct (body (heap (build_graph alloc strokes)) cur up u uu)
      as [[[[[p [c|]] up'] u'] uu']|e] eqn:Hb; cbn [fst snd].
    + eapply lh_next; eauto.
    + eapply lh_break; eauto.
    + exact H.
  - destruct (outer_cond u uu) eqn:Ho; cbn [fst snd]; [apply lh_start|]; assumption.
Qed.

Lemma reach_loop_head alloc strokes n :
  let s := reach alloc strokes n in
  loop_head alloc strokes (fst (fst s)) (snd (fst s)) (snd s).
Proof.
  induction n as [|n IH]; [apply lh_init|].
  unfold reach in *. cbn [Nat.iter]. apply lh_step_loop_head. exact IH.
Qed.

(** C9: at every evaluation of the outer and inner loop conditions the
    crossed-from-below set is a subset of the unused set, so the outer
    condition holds exactly when the unused set is non-empty; at the top
    of the inner loop the current node is unused and the loop body runs
    without a failed assertion. *)
Theorem unused_up_subset alloc strokes u uu pos :
  loop_head alloc strokes u uu pos ->
  (forall n, In n uu -> In n u) /\
  (outer_cond u uu = true <-> u <> []) /\
  (forall cur up, pos = Some (cur, up) ->
     ns_count (node_key cur) u = true /\
     exists r, body (heap (build_graph alloc strokes)) cur up u uu = Ok r).
Proof.
  intros Hh. destruct (loop_head_Inv _ _ _ _ _ Hh) as [HI Hin].
  split; [exact (inv_sub _ _ HI)|]. split.
  - unfold outer_cond. destruct u as [|n u]; simpl.
    + destruct uu as [|m uu]; simpl.
      * split; [discriminate| intros H; exfalso; apply H; reflexivity].
      * exfalso. apply (inv_sub _ _ HI m). simpl; auto.
    + split; [intros _; discriminate| reflexivity].
  - intros cur up Hpos. pose proof (Hin cur up Hpos) as Hc.
    split; [apply ns_count_In; exact Hc|].
    destruct (body_ok (heap (build_graph alloc strokes)) cur up u uu HI Hc)
      as [nxt [up2 [uu2 [Hb _]]]]. eauto.
Qed.

(** C6: at the start of every thread, the start node is taken from the
    crossed-from-below set when it is non-empty, and is otherwise the least
    node of the unused set under [Node::operator<]; [up] is true exactly
    when the crossed-from-below set is non-empty. *)
Theorem start_port_choice alloc strokes u uu :
  loop_head alloc strokes u uu None -> outer_cond u uu = true ->
  (snd (start_node u uu) = true <-> uu <> []) /\
  (uu <> [] -> In (fst (start_node u uu)) uu) /\
  (uu = [] -> In (fst (start_node u uu)) u /\
     forall n, In n u ->
       n = fst (start_node u uu) \/ key_lt (node_key (fst (start_node u uu))) (node_key n)).
Proof.
  intros Hh Ho. destruct (loop_head_Inv _ _ _ _ _ Hh) as [HI _].
  unfold start_node. destruct uu as [|c uu]; simpl.
  - split; [split; [discriminate| intros H; exfalso; apply H; reflexivity]|].
    split; [intros H; exfalso; apply H; reflexivity|].
    intros _. unfold outer_cond in Ho.
    destruct u as [|m u]; simpl in *; [discriminate|].
    split; [left; reflexivity|].
    pose proof (inv_sorted _ _ HI) as Hs. inversion Hs as [|? ? _ Hall]; subst.
    rewrite Forall_forall in Hall.
    intros n [<-|Hn]; [left; reflexivity| right; apply Hall; exact Hn].
  - split; [split; [intros _; discriminate| reflexivity]|].
    split; [intros _; left; reflexivity| intros H; discriminate].
Qed.

(** C9 witness: the top of the inner loop at the start of the second
    thread of the square mesh, which starts from a non-empty
    crossed-from-below set. *)
Lemma unused_up_subset_witness :
  let s := reach N.of_nat square_strokes 6 in
  option_map snd (snd s) = Some true /\ snd (fst s) <> [] /\
  (forall n, In n (snd (fst s)) -> In n (fst (fst s))) /\
  (outer_cond (fst (fst s)) (snd (fst s)) = true <-> fst (fst s) <> []) /\
  (forall cur up, snd s = Some (cur, up) ->
     ns_count (node_key cur) (fst (fst s)) = true /\
     exists r, body (heap (build_graph N.of_nat square_strokes)) cur up
                 (fst (fst s)) (snd (fst s)) = Ok r).
Proof.
  cbv zeta. split; [vm_compute; reflexivity|]. split; [vm_compute; discriminate|].
  apply (unused_up_subset N.of_nat square_strokes _ _ _ (reach_loop_head N.of_nat square_strokes 6)).
Defined.

(** C6 witness: the start of the second thread of the square mesh, where
    the crossed-from-below set is not empty. *)
Lemma start_port_choice_witness :
  let s := reach N.of_nat square_strokes 5 in
  snd s = None /\ snd (fst s) <> [] /\ outer_cond (fst (fst s)) (snd (fst s)) = true /\
  (snd (start_node (fst (fst s)) (snd (fst s))) = true <-> snd (fst s) <> []) /\
  (snd (fst s) <> [] -> In (fst (start_node (fst (fst s)) (snd (fst s)))) (snd (fst s))) /\
  (snd (fst s) = [] ->
     In (fst (start_node (fst (fst s)) (snd (fst s)))) (fst (fst s)) /\
     forall n, In n (fst (fst s)) ->
       n = fst (start_node (fst (fst s)) (snd (fst s))) \/
       key_lt (node_key (fst (start_node (fst (fst s)) (snd (fst s))))) (node_key n)).
Proof.
  cbv zeta. pose proof (reach_loop_head N.of_nat square_strokes 5) as H. cbv zeta in H.
  assert (Hp : snd (reach N.of_nat square_strokes 5) = None) by (vm_compute; reflexivity).
  rewrite Hp in H.
  split; [exact Hp|]. split; [vm_compute; discriminate|]. split; [vm_compute; reflexivity|].
  apply (start_port_choice N.of_nat square_strokes _ _ H). vm_compute. reflexivity.
Defined.

(** * The step to the next midpoint *)

Lemma split_find_first v before after :
  ~ In v before -> split_find v (before ++ v :: after) = Some (before, after).
Proof.
  induction before as [|x r IH]; simpl; intros Hn.
  - rewrite (proj2 (vec2_eqb_eq v v) eq_refl). reflexivity.
  - destruct (vec2_eqb x v) eqn:E.
    + apply vec2_eqb_eq in E. exfalso; auto.
    + rewrite IH; auto.
Qed.

Lemma hd_nth {A} (l : list A) d : hd d l = nth 0 l d.
Proof. destruct l; reflexivity. Qed.

Lemma last_nth {A} (l : list A) d : l <> [] -> last l d = nth (length l - 1) l d.
Proof.
  intros Hne. rewrite (app_removelast_last d Hne) at 2 3.
  rewrite length_app. simpl. rewrite Nat.add_sub, app_nth2, Nat.sub_diag by lia.
  reflexivity.
Qed.

Lemma FindNext_index ms v before after cw :
  ms = before ++ v :: after -> ~ In v before ->
  FindNext ms v cw =
  nth (if cw then S (length before) mod length ms
       else (length before + length ms - 1) mod length ms) ms v.
Proof.
  intros Hms Hn. unfold FindNext. rewrite Hms, (split_find_first _ _ _ Hn).
  rewrite length_app. simpl length. destruct cw.
  - destruct after as [|y r]; simpl length.
    + rewrite Nat.add_1_r, Nat.Div0.mod_same, <- hd_nth. reflexivity.
    + rewrite Nat.mod_small by lia. rewrite app_nth2, Nat.sub_succ_l, Nat.sub_diag by lia.
      reflexivity.
  - destruct (rev before) as [|y r] eqn:E.
    + assert (before = []) as ->.
      { rewrite <- (rev_involutive before), E. reflexivity. }
      cbn [app length]. rewrite Nat.mod_small by lia.
      rewrite last_nth by discriminate. reflexivity.
    + assert (Hb : before = rev r ++ [y]).
      { rewrite <- (rev_involutive before), E. reflexivity. }
      rewrite Hb, length_app. simpl length.
      match goal with
      | |- context [(?e mod ?m)%nat] => replace e with (length (rev r) + 1 * m)%nat by lia
      end.
      rewrite Nat.Div0.mod_add, Nat.mod_small by lia.
      rewrite <- app_assoc, app_nth2, Nat.sub_diag by lia. reflexivity.
Qed.

(** C7: in a pass through [cur], the exit junction is the entry junction
    for a Bounce stroke, and otherwise the other junction of the stroke
    (when its two junctions differ); the step is clockwise exactly when the
    exit direction is [fLeft] or [bRight]; and the next midpoint is the
    cyclic successor (clockwise) or predecessor (otherwise) of the first
    occurrence of [cur]'s midpoint in the exit junction's sorted list. *)
Theorem exit_junction_and_next h cur j next cw :
  next_target h cur = (j, next, cw) ->
  (type cur = Bounce -> j = entry_junction cur) /\
  (type cur <> Bounce -> left cur <> right cur ->
     (j = left cur \/ j = right cur) /\ j <> entry_junction cur) /\
  (cw = true <-> dir (exit_node cur) = fLeft \/ dir (exit_node cur) = bRight) /\
  (forall before after,
     jmids h j = before ++ mid cur :: after -> ~ In (mid cur) before ->
     next = nth (if cw then S (length before) mod length (jmids h j)
                 else (length before + length (jmids h j) - 1) mod length (jmids h j))
                (jmids h j) (mid cur)).
Proof.
  unfold next_target. intros H. injection H as Hj Hn Hc.
  split; [|split; [|split]].
  - intros Hb. subst j. unfold exit_junction. simpl. rewrite Hb. reflexivity.
  - intros Hb Hlr. subst j. unfold exit_junction, entry_junction. simpl.
    destruct (type cur); [| congruence |]; simpl;
      destruct (is_left (dir cur));
      destruct (N.eqb_spec (left cur) (right cur));
      try destruct (N.eqb_spec (right cur) (right cur)); try congruence;
      split; auto.
  - subst cw. change (dir (exit_node cur)) with (type_dir (type cur) (dir cur)).
    unfold is_clockwise. simpl. destruct (type_dir (type cur) (dir cur)); simpl;
      split; intros H; try discriminate; try (destruct H as [H|H]; discriminate); auto.
  - intros before after Hms Hnin. subst next cw j.
    apply (FindNext_index _ _ before after); assumption.
Qed.

(** C7 witness: the first pass of the plus-shaped mesh. *)
Lemma exit_junction_and_next_witness :
  exists j next cw,
    next_target (heap plus_graph) plus_start = (j, next, cw) /\
    (type plus_start = Bounce -> j = entry_junction plus_start) /\
    (type plus_start <> Bounce -> left plus_start <> right plus_start ->
       (j = left plus_start \/ j = right plus_start) /\ j <> entry_junction plus_start) /\
    (cw = true <-> dir (exit_node plus_start) = fLeft \/ dir (exit_node plus_start) = bRight) /\
    (forall before after,
       jmids (heap plus_graph) j = before ++ mid plus_start :: after ->
       ~ In (mid plus_start) before ->
       next = nth (if cw then S (length before) mod length (jmids (heap plus_graph) j)
                   else (length before + length (jmids (heap plus_graph) j) - 1)
                          mod length (jmids (heap plus_graph) j))
                  (jmids (heap plus_graph) j) (mid plus_start)).
Proof.
  exists (fst (fst (next_target (heap plus_graph) plus_start))),
         (snd (fst (next_target (heap plus_graph) plus_start))),
         (snd (next_target (heap plus_graph) plus_start)).
  split; [vm_compute; reflexivity|].
  apply exit_junction_and_next. vm_compute. reflexivity.
Defined.

(** * Closure of the threads *)

Lemma Imod_range i n : 0 < n -> 0 <= Imod i n < n.
Proof.
  intros Hn. unfold Imod. pose proof (Z.rem_bound_abs i n ltac:(lia)) as H.
  destruct (Z.ltb_spec (Z.rem i n) 0); lia.
Qed.

Lemma Imod_small i n : 0 <= i < n -> Imod i n = i.
Proof.
  intros H. unfold Imod. rewrite Z.rem_small by exact H.
  destruct (Z.ltb_spec i 0); lia.
Qed.

Lemma knot_xs_first f : (0 < f)%nat -> nth 0 (knot_xs f) 0%Q = 0%Q.
Proof. intros Hf. destruct f as [|f]; [lia| reflexivity]. Qed.

Lemma knot_xs_last f : nth f (knot_xs f) 0%Q = 1%Q.
Proof.
  unfold knot_xs. rewrite app_nth2; rewrite length_map, length_seq; [|lia].
  rewrite Nat.sub_diag. reflexivity.
Qed.

Lemma knot_xs_pos f k : (1 <= k <= f)%nat -> (0 < nth k (knot_xs f) 0%Q)%Q.
Proof.
  intros Hk. destruct (Nat.eq_dec k f) as [->|Hne].
  - rewrite knot_xs_last. unfold Qlt; simpl; lia.
  - unfold knot_xs. rewrite app_nth1 by (rewrite length_map, length_seq; lia).
    erewrite nth_error_nth;
      [| rewrite nth_error_map, nth_error_seq, (proj2 (Nat.ltb_lt k f)) by lia;
         reflexivity].
    simpl (0 + k)%nat. rewrite Qred_correct. unfold Qlt. simpl. lia.
Qed.

Lemma Qle_bool_pos q : (0 < q)%Q -> Qle_bool q 0 = false.
Proof.
  intros H. destruct (Qle_bool q 0) eqn:E; [|reflexivity].
  apply Qle_bool_iff in E. exfalso. exact (Qlt_not_le _ _ H E).
Qed.

Lemma GetX_make_z ps i :
  0 <= i < Z.of_nat (S (length ps)) ->
  GetX (make_z ps) i = nth (Z.to_nat i) (knot_xs (length ps)) 0%Q.
Proof. intros H. unfold GetX. cbn [z_n z_xs make_z]. rewrite Imod_small by exact H. reflexivity. Qed.

Lemma search_index_zero ps :
  ps <> [] ->
  forall k fuel i, Imod i (Z.of_nat (S (length ps))) = Z.of_nat k -> (k < fuel)%nat ->
  (k <= length ps)%nat ->
  search_index fuel (make_z ps) 0%Q i = Ok 0.
Proof.
  intros Hne. assert (Hf : (0 < length ps)%nat) by (destruct ps; [congruence| simpl; lia]).
  induction k as [|k IH]; intros fuel i Hi Hfuel Hk;
    (destruct fuel as [|fuel]; [lia|]); cbn [search_index];
    change (z_n (make_z ps)) with (S (length ps));
    change (z_loop (make_z ps)) with true; rewrite Hi.
  - rewrite !GetX_make_z by lia. simpl Z.to_nat.
    rewrite knot_xs_first by exact Hf.
    replace (Qle_bool 0 0) with true by reflexivity.
    unfold Qltb. rewrite (Qle_bool_pos (nth (Z.to_nat (Z.of_nat 0 + 1)) _ _)).
    + reflexivity.
    + apply knot_xs_pos. simpl. lia.
  - rewrite GetX_make_z by lia. rewrite Nat2Z.id.
    rewrite Qle_bool_pos by (apply knot_xs_pos; lia).
    rewrite andb_false_r. apply (IH fuel); [| lia | lia].
    rewrite Imod_small; lia.
Qed.

Lemma LoopInRange_ends ps x :
  ps <> [] -> x = 0%Q \/ x = 1%Q -> LoopInRange (make_z ps) x = Ok 0%Q.
Proof.
  intros Hne Hx. assert (Hf : (0 < length ps)%nat) by (destruct ps; [congruence| simpl; lia]).
  unfold LoopInRange. cbn [z_n z_xs make_z]. simpl pred.
  rewrite knot_xs_first, knot_xs_last by exact Hf.
  destruct Hx as [->| ->]; reflexivity.
Qed.

(** The step curve of a thread takes its first value at both ends of the
    parameter range, whatever index the evaluation had cached. *)
Lemma Step_Y_ends ps i x :
  ps <> [] -> x = 0%Q \/ x = 1%Q ->
  Step_Y (make_z ps) i x = Ok (hd 0%Q (z_ys (make_z ps)), 0).
Proof.
  intros Hne Hx. assert (Hf : (0 < length ps)%nat) by (destruct ps; [congruence| simpl; lia]).
  assert (Hn : 0 < Z.of_nat (S (length ps))) by lia.
  unfold Step_Y, GetIndex, GetSubRange.
  change (z_loop (make_z ps)) with true.
  rewrite (LoopInRange_ends ps x Hne Hx). cbn [bind].
  rewrite (search_index_zero ps Hne (Z.to_nat (Imod i (Z.of_nat (S (length ps)))))).
  - cbn [bind]. rewrite !GetX_make_z by lia. simpl Z.to_nat.
    rewrite knot_xs_first by exact Hf.
    unfold Qltb, Qle_bool, Qdiv, Qmult, Qminus, Qplus.
    destruct (Qinv (nth 1 (knot_xs (length ps)) 0%Q + - 0%Q)) as [qn qd]. simpl.
    unfold GetY. cbn [z_n z_ys make_z]. rewrite Imod_small by lia.
    simpl Z.to_nat. rewrite hd_nth. reflexivity.
  - rewrite Z2Nat.id; [reflexivity|]. apply Imod_range. exact Hn.
  - change (z_n (make_z ps)) with (S (length ps)).
    pose proof (Imod_range i _ Hn). lia.
  - pose proof (Imod_range i _ Hn). lia.
Qed.

Lemma last_close_loop {A} (d : A) l : l <> [] -> last (close_loop d l) d = hd d (close_loop d l).
Proof.
  intros Hne. unfold close_loop. rewrite last_last.
  destruct l; [congruence| reflexivity].
Qed.

(** C8: every thread is closed: its point, tangent and z sequences have at
    least two samples and end with a copy of their first sample, and its
    step curve evaluated at parameter 0 and at parameter 1 gives the same
    value, the first z sample, whatever index the curve had cached. *)
Theorem threads_closed alloc strokes :
  exists art,
    CreateThread alloc strokes = Ok art /\
    Forall (fun th =>
      (2 <= length (th_ys th))%nat /\
      last (th_ys th) (V2 0 0) = hd (V2 0 0) (th_ys th) /\
      last (th_ms th) (TScale (V2 0 0) 0) = hd (TScale (V2 0 0) 0) (th_ms th))
      (mThreads art) /\
    Forall (fun zc =>
      (2 <= length (z_ys zc))%nat /\
      last (z_ys zc) 0%Q = hd 0%Q (z_ys zc) /\
      forall i0 i1, Step_Y zc i0 0 = Ok (hd 0%Q (z_ys zc), 0) /\
                    Step_Y zc i1 1 = Ok (hd 0%Q (z_ys zc), 0))
      (mZs art).
Proof.
  destruct (run_graph_ok alloc strokes) as [log [_ [Hc [Hf _]]]].
  exists (MkArt (map make_thread log) (map make_z log)). split; [exact Hc|].
  simpl. split; apply Forall_map; eapply Forall_impl; try exact Hf;
    intros ps [Hne _]; assert (Hm : forall B (f : Pass -> B), map f ps <> [])
      by (intros B f; destruct ps; [congruence| discriminate]).
  - unfold make_thread; cbn [th_ys th_ms].
    split; [unfold close_loop; rewrite length_app, length_map; simpl;
            destruct ps; [congruence| simpl; lia]|].
    split; apply last_close_loop; apply Hm.
  - split; [unfold make_z, close_loop; cbn [z_ys]; rewrite length_app, length_map; simpl;
            destruct ps; [congruence| simpl; lia]|].
    split; [unfold make_z; cbn [z_ys]; apply last_close_loop; apply Hm|].
    intros i0 i1. split; apply Step_Y_ends; auto.
Qed.

(** * Independence from the allocator *)

Section Rename.

Variable f : Ptr -> Ptr.
Hypothesis Hf : forall a b, N.eqb (f a) (f b) = N.eqb a b.

Lemma set_dir_rn n d : set_dir (rn_node f n) d = rn_node f (set_dir n d).
Proof. reflexivity. Qed.

Lemma ns_count_rn k s : ns_count k (rn_set f s) = ns_count k s.
Proof. induction s as [|n s IH]; simpl; [reflexivity| rewrite IH; reflexivity]. Qed.

Lemma ns_find_rn k s : ns_find k (rn_set f s) = option_map (rn_node f) (ns_find k s).
Proof.
  induction s as [|n s IH]; simpl; [reflexivity|].
  change (node_key (rn_node f n)) with (node_key n).
  destruct (key_eqb (node_key n) k); [reflexivity| exact IH].
Qed.

Lemma ns_erase_rn k s : ns_erase k (rn_set f s) = rn_set f (ns_erase k s).
Proof.
  induction s as [|n s IH]; simpl; [reflexivity|].
  change (node_key (rn_node f n)) with (node_key n).
  destruct (key_eqb (node_key n) k); simpl; rewrite <- IH; reflexivity.
Qed.

Lemma ns_insert_rn n s : ns_insert (rn_node f n) (rn_set f s) = rn_set f (ns_insert n s).
Proof.
  unfold ns_insert. rewrite ns_count_rn. change (node_key (rn_node f n)) with (node_key n).
  destruct (ns_count (node_key n) s); [reflexivity|].
  induction s as [|m s IH]; simpl; [reflexivity|].
  change (node_key (rn_node f m)) with (node_key m).
  change (node_key (rn_node f n)) with (node_key n).
  destruct (key_ltb (node_key m) (node_key n)); simpl; [rewrite IH|]; reflexivity.
Qed.

Lemma heap_get_rn p h : heap_get (f p) (rn_heap f h) = heap_get p h.
Proof.
  unfold heap_get. induction h as [|[q j] h IH]; simpl; [reflexivity|].
  rewrite Hf. destruct (N.eqb q p); [reflexivity| exact IH].
Qed.

Lemma jmids_rn p h : jmids (rn_heap f h) (f p) = jmids h p.
Proof. unfold jmids. rewrite heap_get_rn. reflexivity. Qed.

Lemma jpos_rn p h : jpos (rn_heap f h) (f p) = jpos h p.
Proof. unfold jpos. rewrite heap_get_rn. reflexivity. Qed.

Lemma heap_update_rn p F h :
  heap_update (f p) F (rn_heap f h) = rn_heap f (heap_update p F h).
Proof.
  unfold heap_update, rn_heap. rewrite !map_map. apply map_ext. intros [q j]. simpl.
  rewrite Hf. destruct (N.eqb q p); reflexivity.
Qed.

Lemma jm_get_rn v m : jm_get v (rn_jmap f m) = option_map f (jm_get v m).
Proof.
  unfold jm_get. induction m as [|e m IH]; simpl; [reflexivity|].
  destruct (vec2_eqb (fst e) v); [reflexivity| exact IH].
Qed.

Lemma emit_rn h cur : emit (rn_heap f h) (rn_node f cur) = emit h cur.
Proof. unfold emit. simpl. rewrite !jpos_rn. reflexivity. Qed.

Lemma mark_crossed_rn cur up u uu :
  mark_crossed (rn_node f cur) up (rn_set f u) (rn_set f uu) =
  res_map (rn_set f) (mark_crossed cur up u uu).
Proof.
  unfold mark_crossed. simpl.
  change (set_dir (rn_node f cur) (GlanceDir (dir cur)))
    with (rn_node f (set_dir cur (GlanceDir (dir cur)))).
  change (node_key (rn_node f (set_dir cur (GlanceDir (dir cur)))))
    with (node_key (set_dir cur (GlanceDir (dir cur)))).
  rewrite ns_count_rn.
  destruct (negb up && stroke_type_eqb (type cur) Cross); [|reflexivity].
  destruct (ns_count (node_key (set_dir cur (GlanceDir (dir cur)))) u); [|reflexivity].
  change (set_dir (rn_node f (set_dir cur (GlanceDir (dir cur))))
            (CrossDir (dir (set_dir cur (GlanceDir (dir cur))))))
    with (rn_node f (set_dir (set_dir cur (GlanceDir (dir cur)))
                             (CrossDir (dir (set_dir cur (GlanceDir (dir cur))))))).
  change (node_key (rn_node f (set_dir (set_dir cur (GlanceDir (dir cur)))
                             (CrossDir (dir (set_dir cur (GlanceDir (dir cur))))))))
    with (node_key (set_dir (set_dir cur (GlanceDir (dir cur)))
                             (CrossDir (dir (set_dir cur (GlanceDir (dir cur))))))).
  rewrite ns_count_rn.
  destruct (ns_count _ u); simpl; [|reflexivity].
  rewrite ns_insert_rn, set_dir_rn, ns_insert_rn. reflexivity.
Qed.

Lemma consume_rn cur u uu :
  consume (rn_node f cur) (rn_set f u) (rn_set f uu) =
  res_map (fun r => (rn_set f (fst r), rn_set f (snd r))) (consume cur u uu).
Proof.
  unfold consume. change (node_key (rn_node f cur)) with (node_key cur).
  rewrite ns_count_rn, !ns_erase_rn.
  destruct (ns_count (node_key cur) u); reflexivity.
Qed.

Lemma exit_junction_rn cur j :
  exit_junction (rn_node f cur) (f j) = f (exit_junction cur j).
Proof.
  unfold exit_junction. simpl. rewrite Hf.
  destruct (stroke_type_eqb (type cur) Bounce); [reflexivity|].
  destruct (N.eqb j (right cur)); reflexivity.
Qed.

Lemma entry_junction_rn cur : entry_junction (rn_node f cur) = f (entry_junction cur).
Proof. unfold entry_junction. simpl. destruct (is_left (dir cur)); reflexivity. Qed.

Lemma next_target_rn h cur :
  next_target (rn_heap f h) (rn_node f cur) =
  (f (fst (fst (next_target h cur))), snd (fst (next_target h cur)),
   snd (next_target h cur)).
Proof.
  unfold next_target.
  change (set_dir (rn_node f cur) (type_dir (type (rn_node f cur)) (dir (rn_node f cur))))
    with (rn_node f (set_dir cur (type_dir (type cur) (dir cur)))).
  rewrite entry_junction_rn, exit_junction_rn, jmids_rn. reflexivity.
Qed.

Lemma select_next_rn u next cw j :
  select_next (rn_set f u) next cw (f j) = option_map (rn_node f) (select_next u next cw j).
Proof.
  unfold select_next. rewrite !ns_find_rn.
  destruct (ns_find (next, if cw then fRight else bRight) u) as [it|]; simpl; [|reflexivity].
  rewrite Hf.
  change (node_key (set_dir (rn_node f it) (CrossDir (dir it))))
    with (node_key (set_dir it (CrossDir (dir it)))).
  rewrite ns_count_rn.
  destruct (negb (N.eqb (right it) j)); [|reflexivity].
  destruct (ns_count _ u); reflexivity.
Qed.

Lemma body_rn h cur up u uu :
  body (rn_heap f h) (rn_node f cur) up (rn_set f u) (rn_set f uu) =
  res_map (fun r => match r with
                    | (p, nxt, up', u', uu') =>
                        (rn_pass f p, option_map (rn_node f) nxt, up', rn_set f u', rn_set f uu')
                    end) (body h cur up u uu).
Proof.
  unfold body. rewrite mark_crossed_rn.
  destruct (mark_crossed cur up u uu) as [uu1|e]; cbn [bind res_map]; [|reflexivity].
  rewrite consume_rn.
  destruct (consume cur u uu1) as [[u2 uu2]|e]; cbn [bind res_map fst snd]; [|reflexivity].
  change (set_dir (rn_node f cur) (type_dir (type (rn_node f cur)) (dir (rn_node f cur))))
    with (rn_node f (set_dir cur (type_dir (type cur) (dir cur)))).
  rewrite consume_rn.
  destruct (consume (set_dir cur (type_dir (type cur) (dir cur))) u2 uu2) as [[u3 uu3]|e];
    cbn [bind res_map fst snd]; [|reflexivity].
  rewrite emit_rn, next_target_rn.
  destruct (next_target h cur) as [[j next] cw]. cbn [fst snd].
  rewrite select_next_rn. reflexivity.
Qed.

Lemma trace_rn fuel h : forall cur up u uu,
  trace fuel (rn_heap f h) (rn_node f cur) up (rn_set f u) (rn_set f uu) =
  res_map (fun r => match r with
                    | (ps, u', uu') => (map (rn_pass f) ps, rn_set f u', rn_set f uu')
                    end) (trace fuel h cur up u uu).
Proof.
  induction fuel as [|fuel IH]; intros cur up u uu; [reflexivity|].
  cbn [trace]. rewrite body_rn.
  destruct (body h cur up u uu) as [[[[[p nxt] up'] u'] uu']|e]; cbn [bind res_map]; [|reflexivity].
  destruct nxt as [c|]; cbn [option_map]; [|reflexivity].
  rewrite IH. destruct (trace fuel h c up' u' uu') as [[[ps u2] uu2]|e]; reflexivity.
Qed.

Lemma make_thread_rn ps : make_thread (map (rn_pass f) ps) = make_thread ps.
Proof. unfold make_thread. rewrite !map_map, length_map. reflexivity. Qed.

Lemma make_z_rn ps : make_z (map (rn_pass f) ps) = make_z ps.
Proof. unfold make_z. rewrite !map_map, length_map. reflexivity. Qed.

Lemma run_rn fuel h : forall u uu ret retZs log,
  run fuel (rn_heap f h) (rn_set f u) (rn_set f uu) ret retZs (map (map (rn_pass f)) log) =
  res_map (fun r => match r with
                    | (ret', retZs', log') => (ret', retZs', map (map (rn_pass f)) log')
                    end) (run fuel h u uu ret retZs log).
Proof.
  induction fuel as [|fuel IH]; intros u uu ret retZs log; [reflexivity|].
  cbn [run]. unfold outer_cond, rn_set. rewrite !length_map. fold (rn_set f u) (rn_set f uu).
  destruct ((0 <? length u)%nat || (0 <? length uu)%nat) eqn:Eo; [|reflexivity].
  assert (Hs : start_node (rn_set f u) (rn_set f uu) =
               (rn_node f (fst (start_node u uu)), snd (start_node u uu))).
  { destruct uu as [|c uu]; [|reflexivity].
    destruct u as [|n u]; [simpl in Eo; discriminate| reflexivity]. }
  rewrite Hs. destruct (start_node u uu) as [cur up]. cbn [fst snd].
  replace (length (rn_set f u)) with (length u) by (unfold rn_set; rewrite length_map; reflexivity).
  rewrite trace_rn.
  destruct (trace (S (length u)) h cur up u uu) as [[[ps u'] uu']|e];
    cbn [bind res_map]; [|reflexivity].
  rewrite make_thread_rn, make_z_rn.
  replace (map (map (rn_pass f)) log ++ [map (rn_pass f) ps])
    with (map (map (rn_pass f)) (log ++ [ps])) by (rewrite map_app; reflexivity).
  apply IH.
Qed.

Lemma run_graph_rn g :
  run_graph (rn_graph f g) =
  res_map (fun r => match r with
                    | (ret', retZs', log') => (ret', retZs', map (map (rn_pass f)) log')
                    end) (run_graph g).
Proof.
  unfold run_graph, rn_graph. cbn [unused heap].
  replace (length (rn_set f (unused g))) with (length (unused g))
    by (unfold rn_set; rewrite length_map; reflexivity).
  exact (run_rn (S (length (unused g))) (heap g) (unused g) [] [] [] []).
Qed.

End Rename.

Section AllocRename.

Variable alloc : nat -> Ptr.
Hypothesis Hinj : injective alloc.

Lemma alloc_rn_eqb a b : N.eqb (alloc_rn alloc a) (alloc_rn alloc b) = N.eqb a b.
Proof.
  unfold alloc_rn. destruct (N.eqb_spec a b) as [->|Hne]; [apply N.eqb_refl|].
  apply N.eqb_neq. intros H. apply Hinj in H. apply Hne, N2Nat.inj, H.
Qed.

Lemma get_or_new_rn a g :
  get_or_new alloc a (rn_graph (alloc_rn alloc) g) =
  (alloc_rn alloc (fst (get_or_new N.of_nat a g)),
   rn_graph (alloc_rn alloc) (snd (get_or_new N.of_nat a g))).
Proof.
  unfold get_or_new. cbn [junctions rn_graph]. rewrite jm_get_rn.
  destruct (jm_get a (junctions g)) as [ja|]; [reflexivity|]. cbn [option_map fst snd].
  unfold rn_graph, rn_jmap, rn_heap. cbn [unused junctions heap nalloc].
  rewrite map_app. unfold alloc_rn. simpl. rewrite Nat2N.id. reflexivity.
Qed.

Lemma attach_rn ja a m g :
  attach (alloc_rn alloc ja) a m (rn_graph (alloc_rn alloc) g) =
  rn_graph (alloc_rn alloc) (attach ja a m g).
Proof.
  unfold attach, rn_graph. cbn [unused junctions heap nalloc].
  rewrite heap_update_rn by exact alloc_rn_eqb. reflexivity.
Qed.

Lemma sort_fold_rn (js : JunctionMap) : forall h,
  fold_left (fun h e =>
      heap_update (snd e)
        (fun j => MkJunction (position j) (sort_by (VecAngleComp (position j)) (mids j))) h)
    (rn_jmap (alloc_rn alloc) js) (rn_heap (alloc_rn alloc) h) =
  rn_heap (alloc_rn alloc)
    (fold_left (fun h e =>
        heap_update (snd e)
          (fun j => MkJunction (position j) (sort_by (VecAngleComp (position j)) (mids j))) h)
      js h).
Proof.
  induction js as [|e js IH]; intros h; [reflexivity|].
  simpl. rewrite heap_update_rn by exact alloc_rn_eqb. apply IH.
Qed.

Lemma sort_junctions_rn g :
  sort_junctions (rn_graph (alloc_rn alloc) g) = rn_graph (alloc_rn alloc) (sort_junctions g).
Proof.
  unfold sort_junctions, rn_graph. cbn [unused junctions heap nalloc].
  rewrite sort_fold_rn. reflexivity.
Qed.

Lemma insert_ports_rn n s :
  insert_ports (rn_node (alloc_rn alloc) n) (rn_set (alloc_rn alloc) s) =
  rn_set (alloc_rn alloc) (insert_ports n s).
Proof. unfold insert_ports. rewrite !set_dir_rn, !ns_insert_rn. reflexivity. Qed.

Lemma add_stroke_rn g s :
  add_stroke alloc (rn_graph (alloc_rn alloc) g) s =
  rn_graph (alloc_rn alloc) (add_stroke N.of_nat g s).
Proof.
  unfold add_stroke. rewrite get_or_new_rn.
  destruct (get_or_new N.of_nat (sa s) g) as [ja g1]. cbn [fst snd].
  rewrite attach_rn, get_or_new_rn.
  destruct (get_or_new N.of_nat (sb s) (attach ja (sa s) (GetMid2 s) g1)) as [jb g3].
  cbn [fst snd]. rewrite attach_rn.
  change (MkNode (GetMid2 s) fLeft (stype s) (stroke_normal s)
                 (alloc_rn alloc ja) (alloc_rn alloc jb))
    with (rn_node (alloc_rn alloc) (MkNode (GetMid2 s) fLeft (stype s) (stroke_normal s) ja jb)).
  set (g4 := attach jb (sb s) (GetMid2 s) g3).
  unfold rn_graph at 1 2 3 4. cbn [unused junctions heap nalloc].
  rewrite insert_ports_rn.
  change (MkGraph (rn_set (alloc_rn alloc)
                     (insert_ports (MkNode (GetMid2 s) fLeft (stype s) (stroke_normal s) ja jb)
                        (unused g4)))
                  (rn_jmap (alloc_rn alloc) (junctions g4))
                  (rn_heap (alloc_rn alloc) (heap g4)) (nalloc g4))
    with (rn_graph (alloc_rn alloc)
            (MkGraph (insert_ports (MkNode (GetMid2 s) fLeft (stype s) (stroke_normal s) ja jb)
                        (unused g4)) (junctions g4) (heap g4) (nalloc g4))).
  apply sort_junctions_rn.
Qed.

Lemma build_graph_rn strokes :
  build_graph alloc strokes = rn_graph (alloc_rn alloc) (build_graph N.of_nat strokes).
Proof.
  unfold build_graph.
  change empty_graph with (rn_graph (alloc_rn alloc) empty_graph) at 1.
  generalize empty_graph. induction strokes as [|s r IH]; intros g; [reflexivity|].
  simpl. rewrite add_stroke_rn. apply IH.
Qed.

Lemma CreateThread_alloc strokes : CreateThread alloc strokes = CreateThread N.of_nat strokes.
Proof.
  unfold CreateThread. rewrite build_graph_rn.
  rewrite (run_graph_rn (alloc_rn alloc) alloc_rn_eqb).
  destruct (run_graph (build_graph N.of_nat strokes)) as [[[ret retZs] log]|e]; reflexivity.
Qed.

End AllocRename.

(** C5: [CreateThread] is deterministic: its result depends on the stroke
    list only, not on the addresses the junctions are allocated at; two runs
    with any allocators that never reuse an address give the same threads,
    the same sample counts and the same samples. *)
Theorem CreateThread_deterministic alloc1 alloc2 strokes :
  injective alloc1 -> injective alloc2 ->
  CreateThread alloc1 strokes = CreateThread alloc2 strokes.
Proof.
  intros H1 H2. rewrite (CreateThread_alloc alloc1 H1), (CreateThread_alloc alloc2 H2).
  reflexivity.
Qed.

(** C5 witness: the plus-shaped mesh with junctions at [n] and at [n + 100]. *)
Lemma CreateThread_deterministic_witness :
  CreateThread N.of_nat plus_strokes = CreateThread (fun n => (N.of_nat n + 100)%N) plus_strokes.
Proof.
  apply CreateThread_deterministic; intros m n H; lia.
Defined.

(** * Further properties: the functions of spline.hpp *)

Lemma Qle_bool_true a b : (a <= b)%Q -> Qle_bool a b = true.
Proof. apply Qle_bool_iff. Qed.

Lemma Qle_bool_false a b : (b < a)%Q -> Qle_bool a b = false.
Proof.
  intros H. destruct (Qle_bool a b) eqn:E; [|reflexivity].
  apply Qle_bool_iff in E. lra.
Qed.

Lemma Qltb_true a b : (a < b)%Q -> Qltb a b = true.
Proof. intros H. unfold Qltb. rewrite Qle_bool_false; auto. Qed.

Lemma Qltb_false a b : (b <= a)%Q -> Qltb a b = false.
Proof. intros H. unfold Qltb. rewrite Qle_bool_true; auto. Qed.

Lemma Qltb_iff a b : Qltb a b = true <-> (a < b)%Q.
Proof.
  split; intros H; [|apply Qltb_true; auto].
  destruct (Qlt_le_dec a b) as [L|L]; auto. rewrite Qltb_false in H; auto; discriminate.
Qed.


(** [Function::Mod] on [start < end]: it fails its assertion [d < end]
    exactly when [i] lies below [start] by a whole number of ranges; in every
    other case it returns the representative of [i] modulo [end - start] in
    [[start, end)]. *)
Lemma Mod_cases i s e :
  (s < e)%Q ->
  match Mod i s e with
  | Ok d =>
      ~ ((i < s)%Q /\ exists k : Z, (i == s - inject_Z k * (e - s))%Q) /\
      (s <= d < e)%Q /\ exists k : Z, (d == i + inject_Z k * (e - s))%Q
  | Err err =>
      err = AssertFailed /\ (i < s)%Q /\ exists k : Z, (i == s - inject_Z k * (e - s))%Q
  end.
Proof.
  intros Hse. cbv beta zeta delta [Mod].
  set (r := (e - s)%Q). set (q := ((i - s) / r)%Q).
  assert (Hr : (0 < r)%Q) by (unfold r; lra).
  assert (Hqr : (q * r == i - s)%Q) by (unfold q; field; lra).
  set (d0 := Qabs q). set (fl := Qfloor d0).
  pose proof (Qfloor_le d0) as H1. pose proof (Qlt_floor d0) as H2.
  fold fl in H1, H2. rewrite inject_Z_plus in H2. change (inject_Z 1) with 1%Q in H2.
  assert (Hd1 : (0 <= d0 - inject_Z fl < 1)%Q) by lra.
  assert (Hd2 : (0 <= (d0 - inject_Z fl) * r < r)%Q).
  { destruct Hd1 as [Ha Hb]. split; [apply Qmult_le_0_compat; lra|].
    assert (((d0 - inject_Z fl) * r < 1 * r)%Q) by (apply Qmult_lt_r; assumption).
    lra. }
  destruct (Qle_bool s i) eqn:Es.
  - apply Qle_bool_iff in Es.
    assert (Hq : (0 <= q)%Q) by nra.
    assert (Hd0 : (d0 == q)%Q) by (apply Qabs_pos; exact Hq).
    rewrite Qle_bool_true by lra. simpl. rewrite Qltb_true by (unfold r in *; lra). simpl.
    split; [intros [Hi _]; lra|]. split; [unfold r in *; lra|].
    exists (- fl)%Z. rewrite inject_Z_opp. rewrite Hd0. unfold r in *. nra.
  - assert (Hi : (i < s)%Q).
    { destruct (Qlt_le_dec i s) as [L|L]; auto. rewrite Qle_bool_true in Es; auto; discriminate. }
    assert (Hq : (q < 0)%Q) by nra.
    assert (Hd0 : (d0 == - q)%Q) by (apply Qabs_neg; lra).
    rewrite Qle_bool_true by (unfold r in *; lra). simpl.
    destruct (Qeq_dec d0 (inject_Z fl)) as [Hint|Hint].
    + rewrite Qltb_false by (unfold r in *; rewrite Hint; lra). simpl.
      split; [reflexivity|]. split; [exact Hi|].
      exists fl. rewrite <- Hint, Hd0. unfold r in *. nra.
    + assert (Hpos : (0 < d0 - inject_Z fl)%Q).
      { destruct (Qlt_le_dec (inject_Z fl) d0) as [L|L]; [lra|].
        exfalso. apply Hint. apply Qle_antisym; auto. }
      rewrite Qltb_true by (unfold r in *; nra). simpl.
      split.
      * intros [_ [k Hk]]. apply Hint.
        assert (Hqk : (q == - inject_Z k)%Q).
        { apply (Qmult_inj_r _ _ r); [lra|]. rewrite Hqr. unfold r in *. lra. }
        assert (Hd0k : (d0 == inject_Z k)%Q) by (rewrite Hd0, Hqk; ring).
        unfold fl. rewrite (Qfloor_comp _ _ Hd0k), Qfloor_Z. exact Hd0k.
      * split; [unfold r in *; nra|].
        exists (1 + fl)%Z. rewrite inject_Z_plus, Hd0. change (inject_Z 1) with 1%Q.
        setoid_replace (e - (- q - inject_Z fl) * r)%Q with (e + q * r + inject_Z fl * r)%Q
          by ring.
        rewrite Hqr. unfold r. ring.
Qed.

Lemma Mod_ok_range i s e d : (s < e)%Q -> Mod i s e = Ok d -> (s <= d < e)%Q.
Proof.
  intros Hse Hm. pose proof (Mod_cases i s e Hse) as H. rewrite Hm in H. apply H.
Qed.

Lemma check_knots_ok xs : forall k last i,
  check_knots xs last i k = Ok tt <->
  (k = 0%nat \/ (last < nth i xs 0%Q)%Q) /\
  (forall j, (S j < k)%nat -> (nth (i + j) xs 0%Q < nth (i + S j) xs 0%Q)%Q).
Proof.
  induction k as [|k IH]; intros last i; simpl.
  - split; [intros _; split; [left; reflexivity| intros j Hj; lia] | reflexivity].
  - destruct (Qltb last (nth i xs 0%Q)) eqn:E; simpl.
    + apply Qltb_iff in E. rewrite IH. split.
      * intros [H1 H2]. split; [right; exact E|]. intros j Hj. destruct j as [|j].
        -- destruct H1 as [->|H1]; [lia|]. rewrite Nat.add_0_r, Nat.add_1_r. exact H1.
        -- replace (i + S j)%nat with (S i + j)%nat by lia.
           replace (i + S (S j))%nat with (S i + S j)%nat by lia. apply H2. lia.
      * intros [_ H2]. split.
        -- destruct k as [|k]; [left; reflexivity| right].
           specialize (H2 0%nat ltac:(lia)). rewrite Nat.add_0_r, Nat.add_1_r in H2. exact H2.
        -- intros j Hj. replace (S i + j)%nat with (i + S j)%nat by lia.
           replace (S i + S j)%nat with (i + S (S j))%nat by lia. apply H2; lia.
    + split; [discriminate|]. intros [[H|H] _]; [discriminate|].
      apply Qltb_iff in H. congruence.
Qed.

Lemma Spline_new_ok xs n : Spline_new xs n = Ok tt <-> (1 < n)%nat /\ increasing xs n.
Proof.
  unfold Spline_new. destruct (Nat.ltb_spec 1 n) as [H|H]; simpl.
  - rewrite check_knots_ok. split.
    + intros [[Hk|H0] H2]; [lia|]. split; auto. intros j Hj. destruct j as [|j]; [exact H0|].
      specialize (H2 j ltac:(lia)). exact H2.
    + intros [_ Hinc]. split; [right; apply Hinc; lia|]. intros j Hj. apply Hinc. lia.
  - split; [discriminate| intros [H' _]; lia].
Qed.

Lemma increasing_lt xs n j k : increasing xs n -> (j < k)%nat -> (k < n)%nat ->
  (nth j xs 0%Q < nth k xs 0%Q)%Q.
Proof.
  intros Hinc Hjk Hk. induction k as [|k IH]; [lia|].
  destruct (Nat.eq_dec j k) as [->|Hne]; [apply Hinc; lia|].
  apply Qlt_trans with (nth k xs 0%Q); [apply IH; lia| apply Hinc; lia].
Qed.

Lemma increasing_le xs n j k : increasing xs n -> (j <= k)%nat -> (k < n)%nat ->
  (nth j xs 0%Q <= nth k xs 0%Q)%Q.
Proof.
  intros Hinc Hjk Hk. destruct (Nat.eq_dec j k) as [->|Hne]; [apply Qle_refl|].
  apply Qlt_le_weak, (increasing_lt _ n); auto; lia.
Qed.

Lemma GetX_nat z j : (j < z_n z)%nat -> GetX z (Z.of_nat j) = nth j (z_xs z) 0%Q.
Proof. intros H. unfold GetX. rewrite Imod_small by lia. rewrite Nat2Z.id. reflexivity. Qed.

Lemma GetX_succ z j : (S j < z_n z)%nat -> GetX z (Z.of_nat j + 1) = nth (S j) (z_xs z) 0%Q.
Proof. intros H. replace (Z.of_nat j + 1) with (Z.of_nat (S j)) by lia. apply GetX_nat. exact H. Qed.

Lemma GetY_nat z j : (j < z_n z)%nat -> GetY z (Z.of_nat j) = nth j (z_ys z) 0%Q.
Proof. intros H. unfold GetY. rewrite Imod_small by lia. rewrite Nat2Z.id. reflexivity. Qed.

Lemma GetY_succ z j : (S j < z_n z)%nat -> GetY z (Z.of_nat j + 1) = nth (S j) (z_ys z) 0%Q.
Proof. intros H. replace (Z.of_nat j + 1) with (Z.of_nat (S j)) by lia. apply GetY_nat. exact H. Qed.

Section Search.

Variable z : Zc.
Variable x : Q.
Hypothesis Hloop : z_loop z = true.
Hypothesis Hn : (2 <= z_n z)%nat.
Hypothesis Hinc : increasing (z_xs z) (z_n z).
Hypothesis Hlo : (nth 0 (z_xs z) 0%Q <= x)%Q.
Hypothesis Hhi : (x < nth (pred (z_n z)) (z_xs z) 0%Q)%Q.

Lemma search_up : forall m i fuel,
  (i + m = z_n z - 2)%nat -> (m < fuel)%nat -> (nth i (z_xs z) 0%Q <= x)%Q ->
  exists j, search_index fuel z x (Z.of_nat i) = Ok (Z.of_nat j) /\ bracket z x j.
Proof.
  induction m as [|m IH]; intros i fuel Him Hf Hi; (destruct fuel as [|fuel]; [lia|]);
    cbn [search_index]; rewrite Imod_small by lia;
    rewrite GetX_nat, GetX_succ by lia; rewrite Qle_bool_true by exact Hi.
  - replace (S i) with (pred (z_n z)) by lia. rewrite Qltb_true by exact Hhi.
    exists i. split; [reflexivity|]. split; [lia|]. split; [exact Hi|].
    replace (S i) with (pred (z_n z)) by lia. exact Hhi.
  - destruct (Qltb x (nth (S i) (z_xs z) 0%Q)) eqn:E.
    + apply Qltb_iff in E. exists i. split; [reflexivity|]. split; [lia|]. auto.
    + rewrite Hloop, andb_false_r. replace (Z.of_nat i + 1) with (Z.of_nat (S i)) by lia.
      apply IH; [lia|lia|]. destruct (Qlt_le_dec x (nth (S i) (z_xs z) 0%Q)) as [L|L]; auto.
      apply Qltb_iff in L. congruence.
Qed.

Lemma search_down : forall i fuel,
  (i < z_n z)%nat -> (x < nth i (z_xs z) 0%Q)%Q -> (i < fuel)%nat ->
  exists j, search_index fuel z x (Z.of_nat i) = Ok (Z.of_nat j) /\ bracket z x j.
Proof.
  induction i as [|i IH]; intros fuel Hi Hx Hf; [lra|].
  destruct fuel as [|fuel]; [lia|]. cbn [search_index]. rewrite Imod_small by lia.
  rewrite GetX_nat by lia. rewrite Qle_bool_false by exact Hx.
  rewrite Hloop, andb_false_r. replace (Z.of_nat (S i) - 1) with (Z.of_nat i) by lia.
  destruct (Qlt_le_dec x (nth i (z_xs z) 0%Q)) as [L|L].
  - apply IH; auto; lia.
  - destruct fuel as [|fuel]; [lia|]. cbn [search_index]. rewrite Imod_small by lia.
    rewrite GetX_nat, GetX_succ by lia. rewrite Qle_bool_true by exact L.
    rewrite Qltb_true by exact Hx. exists i. split; [reflexivity|]. split; [lia|]. auto.
Qed.

Lemma search_index_bracket last :
  exists j, search_index (S (z_n z)) z x last = Ok (Z.of_nat j) /\ bracket z x j.
Proof.
  assert (Hn0 : 0 < Z.of_nat (z_n z)) by lia.
  pose proof (Imod_range last _ Hn0) as Hr.
  assert (Hs : search_index (S (z_n z)) z x last =
               search_index (S (z_n z)) z x (Z.of_nat (Z.to_nat (Imod last (Z.of_nat (z_n z)))))).
  { cbn [search_index]. rewrite Z2Nat.id by lia. rewrite (Imod_small (Imod _ _)) by lia.
    reflexivity. }
  rewrite Hs. set (i := Z.to_nat (Imod last (Z.of_nat (z_n z)))).
  assert (Hi : (i < z_n z)%nat) by (unfold i; lia).
  destruct (Qlt_le_dec x (nth i (z_xs z) 0%Q)) as [L|L].
  - apply search_down; auto.
  - assert (Hi2 : (i <= z_n z - 2)%nat).
    { destruct (Nat.eq_dec i (pred (z_n z))) as [E|E]; [|lia].
      rewrite E in L. lra. }
    apply (search_up (z_n z - 2 - i)); auto; lia.
Qed.

Lemma bracket_unique j k : bracket z x j -> bracket z x k -> j = k.
Proof.
  intros [Hj [Hj1 Hj2]] [Hk [Hk1 Hk2]].
  destruct (Nat.lt_trichotomy j k) as [L|[E|L]]; auto; exfalso.
  - pose proof (increasing_le _ _ (S j) k Hinc ltac:(lia) ltac:(lia)). lra.
  - pose proof (increasing_le _ _ (S k) j Hinc ltac:(lia) ltac:(lia)). lra.
Qed.

End Search.

Lemma GetIndex_found z x x' :
  z_loop z = true -> Spline_new (z_xs z) (z_n z) = Ok tt -> LoopInRange z x = Ok x' ->
  exists j, (forall last, GetIndex z last x = Ok (Z.of_nat j)) /\ bracket z x' j.
Proof.
  intros Hl Hnew Hm. apply Spline_new_ok in Hnew. destruct Hnew as [Hn Hinc].
  assert (Hr : (nth 0 (z_xs z) 0%Q <= x' < nth (pred (z_n z)) (z_xs z) 0%Q)%Q).
  { apply (Mod_ok_range x); [apply (increasing_lt _ (z_n z)); auto; lia| exact Hm]. }
  destruct (search_index_bracket z x' Hl Hn (proj1 Hr) (proj2 Hr) 0) as [j [_ Hj]].
  exists j. split; [|exact Hj].
  intros last. unfold GetIndex. rewrite Hl, Hm. cbn [bind].
  destruct (search_index_bracket z x' Hl Hn (proj1 Hr) (proj2 Hr) last) as [k [Hk Hb]].
  rewrite Hk. rewrite (bracket_unique z x' Hn Hinc k j Hb Hj). reflexivity.
Qed.




Lemma period_zero s e a b K :
  (s < e)%Q -> (s <= a < e)%Q -> (s <= b < e)%Q ->
  (a == b + inject_Z K * (e - s))%Q -> K = 0.
Proof.
  intros Hse Ha Hb H.
  destruct (Z.lt_trichotomy K 0) as [L|[E|L]]; auto; exfalso.
  - assert (HK : (inject_Z K <= -1)%Q).
    { change (-1)%Q with (inject_Z (-1)). rewrite <- Zle_Qle. lia. }
    nra.
  - assert (HK : (1 <= inject_Z K)%Q).
    { change 1%Q with (inject_Z 1). rewrite <- Zle_Qle. lia. }
    nra.
Qed.

Lemma Qle_bool_Qeq a a' b b' : (a == a')%Q -> (b == b')%Q -> Qle_bool a b = Qle_bool a' b'.
Proof.
  intros Ha Hb. destruct (Qle_bool a b) eqn:E1; symmetry.
  - apply Qle_bool_iff. apply Qle_bool_iff in E1. rewrite <- Ha, <- Hb. exact E1.
  - destruct (Qle_bool a' b') eqn:E2; auto. apply Qle_bool_iff in E2.
    rewrite <- Ha, <- Hb in E2. apply Qle_bool_iff in E2. congruence.
Qed.

Lemma Qltb_Qeq a a' b b' : (a == a')%Q -> (b == b')%Q -> Qltb a b = Qltb a' b'.
Proof. intros Ha Hb. unfold Qltb. rewrite (Qle_bool_Qeq b b' a a'); auto. Qed.

(** A looped spline evaluated at a point that loops around to the knot [k]. *)
Lemma GetIndex_at_knot z x d k :
  z_loop z = true -> Spline_new (z_xs z) (z_n z) = Ok tt -> LoopInRange z x = Ok d ->
  (d == nth k (z_xs z) 0%Q)%Q -> (k <= z_n z - 2)%nat ->
  (forall last, GetIndex z last x = Ok (Z.of_nat k)) /\
  exists t, GetSubRange z (Z.of_nat k) x = Ok t /\ (t == 0)%Q.
Proof.
  intros Hl Hnew Hm Hd Hk. pose proof (proj1 (Spline_new_ok _ _) Hnew) as [Hn Hinc].
  destruct (GetIndex_found z x d Hl Hnew Hm) as [j [Hg Hj]].
  assert (Hbk : bracket z d k).
  { split; [exact Hk|]. rewrite Hd. split; [apply Qle_refl| apply Hinc; lia]. }
  rewrite (bracket_unique z d Hn Hinc j k Hj Hbk) in Hg. split; [exact Hg|].
  unfold GetSubRange. rewrite Hl, Hm. cbn [bind]. eexists. split; [reflexivity|].
  rewrite GetX_nat, GetX_succ by lia. rewrite Hd.
  assert (~ (nth (S k) (z_xs z) 0%Q - nth k (z_xs z) 0%Q == 0)%Q).
  { pose proof (Hinc k ltac:(lia)). lra. }
  field. auto.
Qed.

Lemma LoopInRange_knot z k :
  Spline_new (z_xs z) (z_n z) = Ok tt -> (k <= z_n z - 2)%nat ->
  exists d, LoopInRange z (nth k (z_xs z) 0%Q) = Ok d /\ (d == nth k (z_xs z) 0%Q)%Q.
Proof.
  intros Hnew Hk. pose proof (proj1 (Spline_new_ok _ _) Hnew) as [Hn Hinc].
  unfold LoopInRange.
  set (s := nth 0 (z_xs z) 0%Q). set (e := nth (pred (z_n z)) (z_xs z) 0%Q).
  assert (Hse : (s < e)%Q) by (apply (increasing_lt _ (z_n z)); auto; lia).
  assert (Hx : (s <= nth k (z_xs z) 0%Q < e)%Q).
  { split; [apply (increasing_le _ (z_n z)); auto; lia| apply (increasing_lt _ (z_n z)); auto; lia]. }
  pose proof (Mod_cases (nth k (z_xs z) 0%Q) s e Hse) as H.
  destruct (Mod (nth k (z_xs z) 0%Q) s e) as [d|err].
  - destruct H as [_ [Hr [K HK]]]. exists d. split; [reflexivity|].
    rewrite (period_zero s e d _ K Hse Hr Hx HK) in HK. rewrite HK. ring.
  - destruct H as [_ [Hlt _]]. lra.
Qed.

Lemma Step_Y_at_rep z x d k last :
  z_loop z = true -> Spline_new (z_xs z) (z_n z) = Ok tt -> LoopInRange z x = Ok d ->
  (d == nth k (z_xs z) 0%Q)%Q -> (k <= z_n z - 2)%nat ->
  Step_Y z last x = Ok (nth k (z_ys z) 0%Q, Z.of_nat k).
Proof.
  intros Hl Hnew Hm Hd Hk. pose proof (proj1 (Spline_new_ok _ _) Hnew) as [Hn _].
  destruct (GetIndex_at_knot z x d k Hl Hnew Hm Hd Hk) as [Hg [t [Ht Ht0]]].
  unfold Step_Y. rewrite Hg. cbn [bind]. rewrite Ht. cbn [bind].
  rewrite (Qltb_Qeq t 0 (1 # 2) (1 # 2)) by (auto; reflexivity).
  rewrite GetY_nat by lia. reflexivity.
Qed.


(** [Function::Hermite] interpolates its data: it takes the value [y0] at
    [t = 0] and [y1] at [t = 1], and [Derivatives::Hermite] (its slope)
    takes the tangent [m0] at [t = 0] and [m1] at [t = 1]. *)
Theorem Hermite_endpoints m0 y0 y1 m1 :
  (SplineFunction.Hermite m0 y0 y1 m1 0 == y0)%Q /\
  (SplineFunction.Hermite m0 y0 y1 m1 1 == y1)%Q /\
  (Derivatives.Hermite m0 y0 y1 m1 0 == m0)%Q /\
  (Derivatives.Hermite m0 y0 y1 m1 1 == m1)%Q.
Proof.
  unfold SplineFunction.Hermite, SplineFunction.h1, SplineFunction.h2, SplineFunction.h3,
    SplineFunction.h4, Derivatives.Hermite, Derivatives.h1, Derivatives.h2, Derivatives.h3,
    Derivatives.h4.
  repeat split; ring.
Qed.

Lemma knot_xs_length f : length (knot_xs f) = S f.
Proof. unfold knot_xs. rewrite length_app, length_map, length_seq. simpl. lia. Qed.

Lemma knot_xs_nth f j : (j < f)%nat ->
  nth j (knot_xs f) 0%Q = Qred (Z.of_nat j # Pos.of_nat f).
Proof.
  intros Hj. unfold knot_xs. rewrite app_nth1 by (rewrite length_map, length_seq; exact Hj).
  apply nth_error_nth. rewrite nth_error_map.
  rewrite (nth_error_nth' (seq 0 f) 0%nat) by (rewrite length_seq; exact Hj).
  rewrite seq_nth by exact Hj. reflexivity.
Qed.

Lemma Zpos_of_nat f : (0 < f)%nat -> Z.pos (Pos.of_nat f) = Z.of_nat f.
Proof. intros H. rewrite <- positive_nat_Z, Nat2Pos.id by lia. reflexivity. Qed.

Lemma knot_xs_increasing f : (0 < f)%nat -> increasing (knot_xs f) (S f).
Proof.
  intros Hf j Hj. pose proof (Zpos_of_nat f Hf) as Hp.
  rewrite knot_xs_nth by lia. rewrite Qred_correct.
  destruct (Nat.eq_dec (S j) f) as [<-|Hne].
  - rewrite knot_xs_last. unfold Qlt. cbn [Qnum Qden]. lia.
  - rewrite knot_xs_nth by lia. rewrite Qred_correct. unfold Qlt. cbn [Qnum Qden].
    rewrite Hp. nia.
Qed.

Lemma make_z_new ps : ps <> [] ->
  Spline_new (z_xs (make_z ps)) (z_n (make_z ps)) = Ok tt /\ z_loop (make_z ps) = true.
Proof.
  intros Hne. split; [|reflexivity]. apply Spline_new_ok. simpl.
  destruct ps as [|p ps]; [congruence|]. simpl. split; [lia|].
  apply knot_xs_increasing. simpl. lia.
Qed.

Lemma make_thread_new ps : ps <> [] -> Spline_new (th_xs (make_thread ps)) (th_n (make_thread ps)) = Ok tt.
Proof.
  intros Hne. apply Spline_new_ok. simpl.
  destruct ps as [|p ps]; [congruence|]. simpl. split; [lia|].
  apply knot_xs_increasing. simpl. lia.
Qed.

(** Every thread ([Spline::Hermite]) and every step curve ([Spline::Step])
    that [CreateThread] builds passes the checks of the [Spline]
    constructor: at least two knots, strictly increasing. The step curves
    loop. *)
Theorem CreateThread_splines_valid alloc strokes :
  exists art,
    CreateThread alloc strokes = Ok art /\
    Forall (fun th => Spline_new (th_xs th) (th_n th) = Ok tt /\ th_loop th = true) (mThreads art) /\
    Forall (fun zc => Spline_new (z_xs zc) (z_n zc) = Ok tt /\ z_loop zc = true) (mZs art).
Proof.
  destruct (run_graph_ok alloc strokes) as [log [_ [Hc [Hf _]]]].
  exists (MkArt (map make_thread log) (map make_z log)). split; [exact Hc|]. simpl. split.
  - apply Forall_map. eapply Forall_impl; [|exact Hf]. intros ps [Hne _].
    split; [apply make_thread_new; exact Hne | reflexivity].
  - apply Forall_map. eapply Forall_impl; [|exact Hf]. intros ps [Hne _].
    apply make_z_new. exact Hne.
Qed.

(** Evaluating the step curve of a thread at the sample time
    [k / frames] of its pass [k] gives that pass's depth ([1] over, [0]
    under) and sets the cached index to [k], whatever the cache held. *)
Theorem z_curve_at_samples alloc strokes :
  exists log,
    CreateThread alloc strokes = Ok (MkArt (map make_thread log) (map make_z log)) /\
    Forall (fun ps => forall k p last, nth_error ps k = Some p ->
      Step_Y (make_z ps) last (Qred (Z.of_nat k # Pos.of_nat (length ps))) =
        Ok (z_value (p_z p), Z.of_nat k)) log.
Proof.
  destruct (run_graph_ok alloc strokes) as [log [_ [Hc [Hf _]]]].
  exists log. split; [exact Hc|]. eapply Forall_impl; [|exact Hf]. intros ps [Hne _] k p last Hk.
  destruct (make_z_new ps Hne) as [Hnew Hl].
  assert (Hkl : (k < length ps)%nat) by (apply nth_error_Some; congruence).
  rewrite <- knot_xs_nth by exact Hkl.
  change (knot_xs (length ps)) with (z_xs (make_z ps)).
  assert (Hk2 : (k <= z_n (make_z ps) - 2)%nat) by (simpl; lia).
  destruct (LoopInRange_knot (make_z ps) k Hnew Hk2) as [d [Hm Hd]].
  rewrite (Step_Y_at_rep (make_z ps) _ d k last Hl Hnew Hm Hd Hk2). do 2 f_equal.
  simpl. unfold close_loop. rewrite app_nth1 by (rewrite length_map; exact Hkl).
  apply nth_error_nth. rewrite nth_error_map, Hk. reflexivity.
Qed.

Lemma NoDup_not_before {A} (b a : list A) x : NoDup (b ++ x :: a) -> ~ In x b.
Proof. intros H Hin. apply (NoDup_remove_2 _ _ _ H). apply in_or_app. left. exact Hin. Qed.

Lemma NoDup_not_after {A} (b a : list A) x : NoDup (b ++ x :: a) -> ~ In x a.
Proof. intros H Hin. apply (NoDup_remove_2 _ _ _ H). apply in_or_app. right. exact Hin. Qed.

Lemma split_find_none v l : ~ In v l -> split_find v l = None.
Proof.
  induction l as [|x r IH]; simpl; intros Hn; [reflexivity|].
  destruct (vec2_eqb x v) eqn:E.
  - apply vec2_eqb_eq in E. exfalso. auto.
  - rewrite IH; auto.
Qed.

(** [Junction::FindNext] returns its argument unchanged when the argument
    is not one of the junction's midpoints. *)
Theorem FindNext_absent ms v cw : ~ In v ms -> FindNext ms v cw = v.
Proof. intros Hn. unfold FindNext. rewrite split_find_none by exact Hn. reflexivity. Qed.

Lemma FindNext_absent_witness : FindNext [V2 1 0; V2 0 1] (V2 5 5) true = V2 5 5.
Proof. apply FindNext_absent. simpl. intros [H|[H|H]]; [discriminate | discriminate | exact H]. Defined.

(** On a junction whose midpoints are distinct, [FindNext] from one of its
    midpoints returns one of its midpoints; stepping back the other way
    returns the start; and it returns its argument exactly when the
    junction has a single midpoint. *)
Theorem FindNext_round_trip ms v cw :
  NoDup ms -> In v ms ->
  In (FindNext ms v cw) ms /\
  FindNext ms (FindNext ms v cw) (negb cw) = v /\
  (FindNext ms v cw = v <-> length ms = 1%nat).
Proof.
  intros Hnd Hin. destruct (in_split _ _ Hin) as [b [a Hms]]. subst ms.
  pose proof (NoDup_not_before _ _ _ Hnd) as Hb.
  pose proof (NoDup_not_after _ _ _ Hnd) as Ha.
  assert (Hv : split_find v (b ++ v :: a) = Some (b, a)) by (apply split_find_first; exact Hb).
  destruct cw; simpl negb.
  - destruct a as [|y a'].
    + destruct b as [|x b'].
      * assert (Hw : forall c, FindNext [v] v c = v)
          by (intros c; unfold FindNext; cbn [app] in Hv; rewrite Hv; destruct c; reflexivity).
        simpl app. rewrite !Hw. split; [left; reflexivity|]. repeat split; auto.
      * assert (Hw : FindNext ((x :: b') ++ [v]) v true = x)
          by (unfold FindNext; rewrite Hv; reflexivity).
        rewrite Hw. unfold FindNext.
        cbn [app split_find]. rewrite (proj2 (vec2_eqb_eq x x) eq_refl). cbn [rev].
        rewrite app_comm_cons. rewrite last_last. split; [left; reflexivity|]. split; [reflexivity|].
        split; [intros ->; exfalso; apply Hb; left; reflexivity|].
        rewrite length_app. simpl. lia.
    + assert (Hw : FindNext (b ++ v :: y :: a') v true = y)
        by (unfold FindNext; rewrite Hv; reflexivity).
      rewrite Hw. unfold FindNext. replace (b ++ v :: y :: a') with ((b ++ [v]) ++ y :: a')
        by (rewrite <- app_assoc; reflexivity).
      pose proof (NoDup_not_before (b ++ [v]) a' y
                    ltac:(rewrite <- app_assoc; exact Hnd)) as Hy.
      rewrite (split_find_first _ _ _ Hy). rewrite rev_app_distr. simpl.
      split; [apply in_or_app; right; left; reflexivity|]. split; [reflexivity|].
      split; [intros ->; exfalso; apply Ha; left; reflexivity|].
      rewrite !length_app. simpl. lia.
  - destruct (rev b) as [|y r] eqn:E.
    + assert (b = []) as -> by (rewrite <- (rev_involutive b), E; reflexivity).
      destruct a as [|z a0] using rev_ind.
      * assert (Hw : forall c, FindNext [v] v c = v)
          by (intros c; unfold FindNext; cbn [app] in Hv; rewrite Hv; destruct c; reflexivity).
        simpl app. rewrite !Hw. split; [left; reflexivity|]. repeat split; auto.
      * clear IHa0.
        assert (Hw : FindNext ([] ++ v :: a0 ++ [z]) v false = z)
          by (unfold FindNext; rewrite Hv; cbn [rev app]; rewrite app_comm_cons, last_last; reflexivity).
        rewrite Hw. unfold FindNext. cbn [app]. rewrite app_comm_cons.
        pose proof (NoDup_not_before (v :: a0) [] z
                      ltac:(rewrite app_comm_cons in Hnd; exact Hnd)) as Hz.
        rewrite (split_find_first z (v :: a0) [] Hz). simpl.
        split; [right; apply in_or_app; right; left; reflexivity|]. split; [reflexivity|].
        split; [intros ->; exfalso; apply Hz; left; reflexivity|].
        rewrite length_app. simpl. lia.
    + assert (Hb' : b = rev r ++ [y]) by (rewrite <- (rev_involutive b), E; reflexivity).
      assert (Hw : FindNext (b ++ v :: a) v false = y)
        by (unfold FindNext; rewrite Hv, E; reflexivity).
      rewrite Hw. subst b. unfold FindNext. rewrite <- app_assoc. cbn [app].
      pose proof (NoDup_not_before (rev r) (v :: a) y
                    ltac:(rewrite <- app_assoc in Hnd; exact Hnd)) as Hy.
      rewrite (split_find_first _ _ _ Hy).
      split; [apply in_or_app; right; left; reflexivity|]. split; [reflexivity|].
      split; [intros ->; exfalso; apply Hb, in_or_app; right; left; reflexivity|].
      rewrite length_app. simpl. lia.
Qed.

Lemma FindNext_round_trip_witness :
  In (FindNext [V2 1 0; V2 0 1; V2 (-1) 0] (V2 1 0) false) [V2 1 0; V2 0 1; V2 (-1) 0] /\
  FindNext [V2 1 0; V2 0 1; V2 (-1) 0]
    (FindNext [V2 1 0; V2 0 1; V2 (-1) 0] (V2 1 0) false) (negb false) = V2 1 0 /\
  (FindNext [V2 1 0; V2 0 1; V2 (-1) 0] (V2 1 0) false = V2 1 0 <->
   length [V2 1 0; V2 0 1; V2 (-1) 0] = 1%nat).
Proof.
  apply FindNext_round_trip.
  - repeat constructor; simpl; intros H; repeat destruct H as [H|H]; try discriminate; exact H.
  - simpl. left. reflexivity.
Defined.

Lemma atan2_ltb_spec u v :
  atan2_ltb u v = true <->
  angle_class u < angle_class v \/
  (angle_class u = angle_class v /\ (angle_class u = 0 \/ angle_class u = 2) /\ 0 < cross u v).
Proof.
  unfold atan2_ltb, cross. cbv zeta.
  destruct (Z.eqb_spec (angle_class u) (angle_class v)) as [E|E].
  - destruct (Z.eqb_spec (angle_class u) 0); destruct (Z.eqb_spec (angle_class u) 2);
      simpl; try rewrite Z.ltb_lt; split; intros H; try lia; try discriminate;
      destruct H as [H|[_ [H _]]]; lia.
  - rewrite Z.ltb_lt. lia.
Qed.

Lemma angle_class_cases u :
  (angle_class u = 0 /\ vy u < 0) \/ (angle_class u = 1 /\ vy u = 0) \/
  (angle_class u = 2 /\ 0 < vy u) \/ (angle_class u = 3 /\ vy u = 0).
Proof.
  unfold angle_class. destruct (Z.ltb_spec (vy u) 0); [lia|].
  destruct (Z.eqb_spec (vy u) 0); [destruct (Z.ltb_spec (vx u) 0)|]; lia.
Qed.

Lemma cross_identity u v w :
  vy v * cross u w = vy u * cross v w + vy w * cross u v.
Proof. unfold cross. ring. Qed.

Lemma atan2_ltb_irrefl u : atan2_ltb u u = false.
Proof.
  destruct (atan2_ltb u u) eqn:E; [|reflexivity]. apply atan2_ltb_spec in E.
  unfold cross in E. lia.
Qed.

Lemma atan2_ltb_trans u v w :
  atan2_ltb u v = true -> atan2_ltb v w = true -> atan2_ltb u w = true.
Proof.
  rewrite !atan2_ltb_spec. intros H1 H2. pose proof (cross_identity u v w) as Hid.
  pose proof (angle_class_cases u). pose proof (angle_class_cases v).
  pose proof (angle_class_cases w).
  destruct H1 as [H1|[E1 [C1 X1]]]; destruct H2 as [H2|[E2 [C2 X2]]]; try (left; lia).
  right. split; [lia|]. split; [lia|].
  destruct C1 as [C1|C1].
  - assert (vy u < 0 /\ vy v < 0 /\ vy w < 0) as [Hu [Hv Hw]] by lia. nia.
  - assert (0 < vy u /\ 0 < vy v /\ 0 < vy w) as [Hu [Hv Hw]] by lia. nia.
Qed.

Lemma atan2_incomparable u v :
  atan2_ltb u v = false -> atan2_ltb v u = false ->
  angle_class u = angle_class v /\ ((angle_class u = 0 \/ angle_class u = 2) -> cross u v = 0).
Proof.
  intros H1 H2.
  assert (N1 : ~ (angle_class u < angle_class v \/
     (angle_class u = angle_class v /\ (angle_class u = 0 \/ angle_class u = 2) /\ 0 < cross u v)))
    by (rewrite <- atan2_ltb_spec; congruence).
  assert (N2 : ~ (angle_class v < angle_class u \/
     (angle_class v = angle_class u /\ (angle_class v = 0 \/ angle_class v = 2) /\ 0 < cross v u)))
    by (rewrite <- atan2_ltb_spec; congruence).
  assert (cross v u = - cross u v) by (unfold cross; ring).
  split; [lia|]. intros C. lia.
Qed.

Lemma atan2_incomparable_trans u v w :
  atan2_ltb u v = false -> atan2_ltb v u = false ->
  atan2_ltb v w = false -> atan2_ltb w v = false ->
  atan2_ltb u w = false /\ atan2_ltb w u = false.
Proof.
  intros H1 H2 H3 H4.
  destruct (atan2_incomparable u v H1 H2) as [E1 X1].
  destruct (atan2_incomparable v w H3 H4) as [E2 X2].
  pose proof (cross_identity u v w) as Hid.
  assert (cross w u = - cross u w) by (unfold cross; ring).
  pose proof (angle_class_cases u). pose proof (angle_class_cases v).
  pose proof (angle_class_cases w).
  assert (Hc : (angle_class u = 0 \/ angle_class u = 2) -> cross u w = 0).
  { intros C. specialize (X1 C). specialize (X2 ltac:(lia)).
    assert (vy v <> 0) by lia. rewrite X1, X2 in Hid. nia. }
  split; [destruct (atan2_ltb u w) eqn:E | destruct (atan2_ltb w u) eqn:E]; auto;
    apply atan2_ltb_spec in E; lia.
Qed.

(** [VecAngleComp(point)], the comparison used to sort the midpoints of
    every junction, is a strict weak order: irreflexive, transitive, and
    with a transitive incomparability (same angle around [point]). *)
Theorem VecAngleComp_strict_weak_order p :
  (forall u, VecAngleComp p u u = false) /\
  (forall u v w, VecAngleComp p u v = true -> VecAngleComp p v w = true ->
                 VecAngleComp p u w = true) /\
  (forall u v w,
     VecAngleComp p u v = false -> VecAngleComp p v u = false ->
     VecAngleComp p v w = false -> VecAngleComp p w v = false ->
     VecAngleComp p u w = false /\ VecAngleComp p w u = false).
Proof.
  unfold VecAngleComp. split; [|split].
  - intros u. apply atan2_ltb_irrefl.
  - intros u v w. apply atan2_ltb_trans.
  - intros u v w. apply atan2_incomparable_trans.
Qed.

Section SortBy.

Variable A : Type.
Variable lt : A -> A -> bool.
Hypothesis lt_asym : forall a b, lt a b = true -> lt b a = false.

Lemma insert_by_perm x l : Permutation (insert_by lt x l) (x :: l).
Proof.
  induction l as [|y r IH]; simpl; [reflexivity|].
  destruct (lt y x); [|reflexivity].
  rewrite IH. apply perm_swap.
Qed.

Lemma sort_by_perm l : Permutation (sort_by lt l) l.
Proof.
  induction l as [|x r IH]; simpl; [reflexivity|].
  rewrite insert_by_perm, IH. reflexivity.
Qed.

Lemma insert_by_HdRel x y l :
  HdRel (fun a b => lt b a = false) y l -> lt x y = false ->
  HdRel (fun a b => lt b a = false) y (insert_by lt x l).
Proof.
  intros Hh Hyx. destruct l as [|z r]; simpl; [constructor; exact Hyx|].
  destruct (lt z x); constructor; [inversion Hh; assumption | exact Hyx].
Qed.

Lemma insert_by_sorted x l :
  Sorted (fun a b => lt b a = false) l -> Sorted (fun a b => lt b a = false) (insert_by lt x l).
Proof.
  induction l as [|y r IH]; simpl; intros Hs; [repeat constructor|].
  destruct (lt y x) eqn:E.
  - inversion Hs; subst. constructor; [apply IH; assumption|].
    apply insert_by_HdRel; [assumption|]. apply lt_asym. exact E.
  - constructor; [exact Hs|]. constructor. exact E.
Qed.

Lemma sort_by_sorted l : Sorted (fun a b => lt b a = false) (sort_by lt l).
Proof.
  induction l as [|x r IH]; simpl; [constructor|]. apply insert_by_sorted. exact IH.
Qed.

End SortBy.

Lemma atan2_not_after_trans u v w :
  atan2_ltb v u = false -> atan2_ltb w v = false -> atan2_ltb w u = false.
Proof.
  intros Hvu Hwv.
  destruct (atan2_ltb w u) eqn:Hwu; [|reflexivity]. exfalso.
  destruct (atan2_ltb u v) eqn:Huv.
  { pose proof (atan2_ltb_trans _ _ _ Hwu Huv). congruence. }
  destruct (atan2_ltb v w) eqn:Hvw.
  { pose proof (atan2_ltb_trans _ _ _ Hvw Hwu). congruence. }
  destruct (atan2_incomparable_trans u v w Huv Hvu Hvw Hwv) as [_ H].
  congruence.
Qed.

(** The stable sort of the midpoints of a junction by [VecAngleComp]
    (the [std::list::sort] of [Graph::Graph]) returns a permutation of
    them in which no midpoint has a strictly smaller angle than any
    midpoint before it. *)
Theorem sort_junction_mids p l :
  Permutation (sort_by (VecAngleComp p) l) l /\
  StronglySorted (fun a b => VecAngleComp p b a = false) (sort_by (VecAngleComp p) l).
Proof.
  assert (Hasym : forall a b, VecAngleComp p a b = true -> VecAngleComp p b a = false).
  { intros a b H. unfold VecAngleComp in *.
    destruct (atan2_ltb (vsub b (vscale 2 p)) (vsub a (vscale 2 p))) eqn:E; [|reflexivity].
    pose proof (atan2_ltb_trans _ _ _ H E) as H2. rewrite atan2_ltb_irrefl in H2. discriminate. }
  split; [apply sort_by_perm|].
  apply Sorted_StronglySorted.
  - intros a b c. unfold VecAngleComp. apply atan2_not_after_trans.
  - apply sort_by_sorted. exact Hasym.
Qed.

(** [Node::operator<] orders the keys [(mid, dir)] of the port set
    strictly and totally: irreflexive, transitive, and any two distinct
    keys are comparable. *)
Theorem Node_order_strict_total :
  (forall k, key_ltb k k = false) /\
  (forall k l m, key_ltb k l = true -> key_ltb l m = true -> key_ltb k m = true) /\
  (forall k l, k <> l -> key_ltb k l = true \/ key_ltb l k = true).
Proof.
  split; [exact key_ltb_irrefl|]. split.
  - intros k l m. apply key_ltb_trans.
  - intros k l. apply key_ltb_total.
Qed.

Lemma run_graph_ports alloc strokes :
  exists log,
    CreateThread alloc strokes = Ok (MkArt (map make_thread log) (map make_z log)) /\
    Forall (fun ps => ps <> []) log /\
    length (flat_map consumed log) = (4 * length (nodup vec2_dec (map GetMid2 strokes)))%nat.
Proof.
  destruct (run_graph_ok alloc strokes) as [log [Hr [Hc [Hf Hp]]]].
  destruct (build_graph_BInv alloc strokes) as [[Hs _ _] Hk].
  pose proof (key_sorted_NoDup _ Hs) as Hnd.
  assert (Hin : forall k, In k (flat_map consumed log) <->
                          In k (map node_key (unused (build_graph alloc strokes)))).
  { intros k. split; apply Permutation_in; auto using Permutation_sym. }
  assert (Hin2 : forall k, In k (flat_map consumed log) <->
                           exists st, In st strokes /\ fst k = GetMid2 st).
  { intros k. rewrite Hin, In_keys_count. apply Hk. }
  exists log. split; [exact Hc|]. split.
  { eapply Forall_impl; [|exact Hf]. intros ps [Hne _]. exact Hne. }
  rewrite (NoDup_same_length _ (list_prod (nodup vec2_dec (map GetMid2 strokes)) all_dirs)).
  - rewrite length_prod. simpl. lia.
  - eapply Permutation_NoDup; eauto.
  - apply NoDup_list_prod; [apply NoDup_nodup| apply NoDup_all_dirs].
  - intros [m d]. rewrite Hin2, in_prod_iff, nodup_In, in_map_iff. simpl.
    split.
    + intros [st [H1 H2]]. split; [eauto| apply all_dirs_In].
    + intros [[st [H1 H2]] _]. eauto.
Qed.

Lemma flat_map_consumed_ge log :
  Forall (fun ps => ps <> []) log -> (2 * length log <= length (flat_map consumed log))%nat.
Proof.
  induction 1 as [|ps log Hne _ IH]; simpl; [lia|].
  rewrite length_app, consumed_length. destruct ps; [congruence|]. simpl. lia.
Qed.

(** [CreateThread] produces no thread for an empty stroke list and at
    least one otherwise, and never more than two threads per distinct
    stroke midpoint. *)
Theorem thread_count_bounds alloc strokes :
  exists art,
    CreateThread alloc strokes = Ok art /\
    (GetThreadCount art = 0%nat <-> strokes = []) /\
    (GetThreadCount art <= 2 * length (nodup vec2_dec (map GetMid2 strokes)))%nat.
Proof.
  destruct (run_graph_ports alloc strokes) as [log [Hc [Hf Hl]]].
  exists (MkArt (map make_thread log) (map make_z log)). split; [exact Hc|].
  unfold GetThreadCount. simpl. rewrite length_map.
  pose proof (flat_map_consumed_ge log Hf) as Hge. split; [|lia].
  split.
  - intros H0. destruct log as [|ps log]; [|discriminate]. simpl in Hl.
    destruct strokes as [|st strokes]; [reflexivity|]. exfalso.
    assert (In (GetMid2 st) (nodup vec2_dec (map GetMid2 (st :: strokes)))).
    { apply nodup_In. left. reflexivity. }
    destruct (nodup vec2_dec (map GetMid2 (st :: strokes))); [contradiction | simpl in Hl; lia].
  - intros ->. simpl in Hl. lia.
Qed.

Lemma Qfloor_nonneg q : (0 <= q)%Q -> (0 <= Qfloor q)%Z.
Proof. intros H. change 0%Z with (Qfloor 0). apply Qfloor_resp_le. exact H. Qed.

Lemma draw_progress count q :
  (0 <= q)%Q ->
  let m := if Qltb 1 q then 1%Q else q in
  (0 <= m <= 1)%Q /\
  (0 <= Qfloor (m * inject_Z (Z.of_nat count) / 2) <= Z.of_nat count / 2)%Z.
Proof.
  intros Hq m.
  assert (Hm : (0 <= m <= 1)%Q).
  { unfold m. destruct (Qltb 1 q) eqn:E; [lra|].
    assert (~ (1 < q)%Q) by (rewrite <- Qltb_iff; congruence).
    split; [exact Hq|]. apply Qnot_lt_le. assumption. }
  split; [exact Hm|].
  assert (Hc : (0 <= inject_Z (Z.of_nat count))%Q).
  { change 0%Q with (inject_Z 0). rewrite <- Zle_Qle. lia. }
  split.
  - apply Qfloor_nonneg. apply Qle_shift_div_l; [reflexivity|]. nra.
  - transitivity (Qfloor (inject_Z (Z.of_nat count) / 2)).
    + apply Qfloor_resp_le. apply Qmult_le_r; [reflexivity|]. nra.
    + unfold Qfloor, inject_Z, Qdiv, Qmult, Qinv. simpl. rewrite Z.mul_1_r. lia.
Qed.

Lemma half_le_of_Z c P : (0 <= P <= Z.of_nat c / 2)%Z -> (Z.to_nat P <= c / 2)%nat.
Proof.
  intros H. assert (E : Z.of_nat (c / 2) = (Z.of_nat c / 2)%Z) by (rewrite Nat2Z.inj_div; reflexivity).
  apply Nat2Z.inj_le. rewrite E, Z2Nat.id by lia. lia.
Qed.

Lemma round_even a : ((a + a mod 2) mod 2 = 0)%nat.
Proof.
  pose proof (Nat.div_mod a 2 ltac:(lia)) as E. pose proof (Nat.mod_upper_bound a 2 ltac:(lia)).
  destruct (a mod 2)%nat as [|[|r]] eqn:R; [rewrite Nat.add_0_r; exact R| |lia].
  replace (a + 1)%nat with ((a / 2 + 1) * 2)%nat by lia. apply Nat.Div0.mod_mul.
Qed.

Lemma draw_fits c p : (p <= c / 2)%nat -> ((c / 2 - p + (c / 2 - p) mod 2) + p * 2 <= c)%nat.
Proof.
  intros. pose proof (Nat.Div0.mod_le (c / 2 - p) 2)%nat. pose proof (Nat.div_mod c 2 ltac:(lia)). lia.
Qed.

Lemma draw_range_eq count q :
  (0 <= q)%Q ->
  let m := if Qltb 1 q then 1%Q else q in
  let P := Qfloor (m * inject_Z (Z.of_nat count) / 2) in
  (0 <= m <= 1)%Q /\ (0 <= P <= Z.of_nat count / 2)%Z /\
  draw_range count q =
    Ok ((count / 2 - Z.to_nat P + (count / 2 - Z.to_nat P) mod 2)%nat, (Z.to_nat P * 2)%nat).
Proof.
  intros Hq m P. pose proof (draw_progress count q Hq) as [Hm HP]. cbv zeta in HP.
  fold m in HP. fold P in HP. split; [exact Hm|]. split; [exact HP|].
  unfold draw_range. fold m. fold P. clearbody m P.
  replace (Z.to_nat P <=? count / 2)%nat with true by (symmetry; apply Nat.leb_le; apply half_le_of_Z; exact HP).
  reflexivity.
Qed.

(** The vertex range that [DoAnim] draws for a thread lies inside its
    [count] vertices, starts at an even vertex (the start of a quad of
    the strip) and covers a whole number of quads; the assertion
    [progress <= count / 2] always holds; once [artTime >= DrawTime] the
    range is the whole strip, [count] being even. *)
Theorem draw_range_bounds count q :
  (0 <= q)%Q ->
  exists start len,
    draw_range count q = Ok (start, len) /\
    (start mod 2 = 0)%nat /\ (len mod 2 = 0)%nat /\ (start + len <= count)%nat /\
    ((1 <= q)%Q -> start = 0%nat /\ len = (2 * (count / 2))%nat).
Proof.
  intros Hq. destruct (draw_range_eq count q Hq) as [Hm [HP Hd]].
  set (m := if Qltb 1 q then 1%Q else q) in *.
  set (P := Qfloor (m * inject_Z (Z.of_nat count) / 2)) in *.
  assert (HP1 : (1 <= q)%Q -> P = (Z.of_nat count / 2)%Z).
  { intros H1. assert (Hm1 : (m == 1)%Q) by (destruct Hm; unfold m in *; destruct (Qltb 1 q); lra).
    unfold P. rewrite Hm1, Qmult_1_l.
    unfold Qfloor, inject_Z, Qdiv, Qmult, Qinv. simpl. rewrite Z.mul_1_r. reflexivity. }
  clearbody m P.
  eexists _, _. split; [exact Hd|]. split; [|split; [|split]].
  - apply round_even.
  - apply Nat.Div0.mod_mul.
  - apply draw_fits, half_le_of_Z, HP.
  - intros H1. rewrite (HP1 H1).
    assert (E : Z.to_nat (Z.of_nat count / 2) = (count / 2)%nat).
    { rewrite <- (Nat2Z.id (count / 2)), Nat2Z.inj_div. reflexivity. }
    rewrite E, Nat.sub_diag. simpl. lia.
Qed.

Lemma draw_range_bounds_witness :
  (0 <= 1 # 3)%Q /\
  exists start len,
    draw_range 10 (1 # 3) = Ok (start, len) /\
    (start mod 2 = 0)%nat /\ (len mod 2 = 0)%nat /\ (start + len <= 10)%nat /\
    ((1 <= 1 # 3)%Q -> start = 0%nat /\ len = (2 * (10 / 2))%nat).
Proof. split; [vm_compute; discriminate | apply (draw_range_bounds 10 (1 # 3)); vm_compute; discriminate]. Defined.

(** *** CreateSquareStrokes *)

Lemma square_loop_length jX jY rnd cells k :
  length (square_loop jX jY rnd cells k) =
  (length (filter (fun c => negb (fst c + 1 =? jX)%nat) cells) +
   length (filter (fun c => negb (snd c + 1 =? jY)%nat) cells))%nat.
Proof.
  revert k; induction cells as [|[x y] r IH]; intros k; [reflexivity|].
  cbn [square_loop filter fst snd].
  destruct (negb (x + 1 =? jX)%nat), (negb (y + 1 =? jY)%nat); cbn [length];
    rewrite IH; lia.
Qed.

Lemma filter_prod_fst {A B} (f : A -> bool) (l : list A) (l' : list B) :
  length (filter (fun c => f (fst c)) (list_prod l l')) = (length (filter f l) * length l')%nat.
Proof.
  induction l as [|a l IH]; [reflexivity|]. cbn [list_prod filter].
  rewrite filter_app, length_app, IH.
  assert (E : filter (fun c => f (fst c)) (map (fun y => (a, y)) l') = if f a then map (fun y => (a, y)) l' else []).
  { clear IH. induction l' as [|b l' IH']; [destruct (f a); reflexivity|].
    cbn [map filter fst]. rewrite IH'. destruct (f a); reflexivity. }
  rewrite E. destruct (f a); cbn [length]; rewrite ?length_map; lia.
Qed.

Lemma filter_prod_snd {A B} (g : B -> bool) (l : list A) (l' : list B) :
  length (filter (fun c => g (snd c)) (list_prod l l')) = (length l * length (filter g l'))%nat.
Proof.
  induction l as [|a l IH]; [reflexivity|]. cbn [list_prod length].
  rewrite filter_app, length_app, IH.
  assert (E : filter (fun c => g (snd c)) (map (fun y => (a, y)) l') = map (fun y => (a, y)) (filter g l')).
  { clear IH. induction l' as [|b l' IH']; [reflexivity|].
    cbn [map filter snd]. rewrite IH'. destruct (g b); reflexivity. }
  rewrite E, length_map. lia.
Qed.

Lemma filter_seq_last j :
  length (filter (fun x => negb (x + 1 =? j)%nat) (seq 1 (j - 1))) = (j - 2)%nat.
Proof.
  destruct j as [|[|n]]; [reflexivity|reflexivity|].
  replace (S (S n) - 1)%nat with (S n) by lia. rewrite seq_S, filter_app, length_app.
  rewrite filter_keep_all.
  - rewrite length_seq. cbn [filter]. replace (1 + n + 1 =? S (S n))%nat with true.
    + cbn. lia.
    + symmetry. apply Nat.eqb_eq. lia.
  - intros x Hx. apply in_seq in Hx. apply negb_true_iff, Nat.eqb_neq. lia.
Qed.

(** [CreateSquareStrokes] pushes [(junctionsX - 2) * (junctionsY - 1)]
    horizontal and [(junctionsX - 1) * (junctionsY - 2)] vertical strokes
    (with the subtractions cut at zero). *)
Theorem CreateSquareStrokes_length jX jY rnd :
  length (CreateSquareStrokes jX jY rnd) = ((jX - 2) * (jY - 1) + (jX - 1) * (jY - 2))%nat.
Proof.
  unfold CreateSquareStrokes. rewrite square_loop_length.
  pose proof (filter_prod_fst (fun x => negb (x + 1 =? jX)%nat) (seq 1 (jX - 1)) (seq 1 (jY - 1))) as E1.
  pose proof (filter_prod_snd (fun y => negb (y + 1 =? jY)%nat) (seq 1 (jX - 1)) (seq 1 (jY - 1))) as E2.
  cbv beta in E1, E2. rewrite E1, E2, !filter_seq_last, !length_seq. reflexivity.
Qed.

Lemma square_loop_edges jX jY rnd cells k s :
  In s (square_loop jX jY rnd cells k) ->
  exists x y, In (x, y) cells /\ sa s = grid_point x y /\
    ((x + 1 <> jX /\ sb s = grid_point (x + 1) y) \/
     (y + 1 <> jY /\ sb s = grid_point x (y + 1)))%nat.
Proof.
  revert k; induction cells as [|[x y] r IH]; intros k Hin; [contradiction|].
  cbn [square_loop] in Hin.
  destruct (x + 1 =? jX)%nat eqn:Ex, (y + 1 =? jY)%nat eqn:Ey; cbn [negb] in Hin;
    apply Nat.eqb_neq in Ex || apply Nat.eqb_eq in Ex;
    apply Nat.eqb_neq in Ey || apply Nat.eqb_eq in Ey;
    repeat match goal with H : In _ (_ :: _) |- _ => destruct H as [<-|H] end;
    first
      [ destruct (IH _ Hin) as (x' & y' & H1 & H2);
        exists x', y'; split; [right; exact H1|exact H2]
      | exists x, y; split; [left; reflexivity|]; split; [reflexivity|];
        solve [left; split; [assumption|reflexivity] | right; split; [assumption|reflexivity]] ].
Qed.

Lemma square_cells_range jX jY x y :
  In (x, y) (list_prod (seq 1 (jX - 1)) (seq 1 (jY - 1))) ->
  (1 <= x < jX /\ 1 <= y < jY)%nat.
Proof. rewrite in_prod_iff, !in_seq. lia. Qed.

(** Every stroke of [CreateSquareStrokes] is one edge of the grid of
    junctions [1 .. junctionsX - 1] by [1 .. junctionsY - 1], from a
    junction to its right or its lower neighbour. *)
Theorem CreateSquareStrokes_edges jX jY rnd s :
  In s (CreateSquareStrokes jX jY rnd) ->
  exists x y, (1 <= x)%nat /\ (1 <= y)%nat /\ sa s = grid_point x y /\
    ((x + 1 < jX /\ y < jY /\ sb s = grid_point (x + 1) y) \/
     (x < jX /\ y + 1 < jY /\ sb s = grid_point x (y + 1)))%nat.
Proof.
  intros Hin. destruct (square_loop_edges _ _ _ _ _ _ Hin) as (x & y & Hc & Ha & Hb).
  apply square_cells_range in Hc. exists x, y. split; [lia|]. split; [lia|]. split; [exact Ha|].
  destruct Hb as [[Hx Hb]|[Hy Hb]]; [left|right]; split; try split; try lia; exact Hb.
Qed.

Lemma CreateSquareStrokes_edges_witness :
  In (MkStroke (grid_point 1 1) (grid_point 2 1) Bounce) (CreateSquareStrokes 3 3 (fun _ => 0%Z)) /\
  exists x y, (1 <= x)%nat /\ (1 <= y)%nat /\
    sa (MkStroke (grid_point 1 1) (grid_point 2 1) Bounce) = grid_point x y /\
    ((x + 1 < 3 /\ y < 3 /\ sb (MkStroke (grid_point 1 1) (grid_point 2 1) Bounce) = grid_point (x + 1) y) \/
     (x < 3 /\ y + 1 < 3 /\ sb (MkStroke (grid_point 1 1) (grid_point 2 1) Bounce) = grid_point x (y + 1)))%nat.
Proof.
  assert (H : In (MkStroke (grid_point 1 1) (grid_point 2 1) Bounce) (CreateSquareStrokes 3 3 (fun _ => 0%Z)))
    by (vm_compute; left; reflexivity).
  split; [exact H | apply (CreateSquareStrokes_edges 3 3 (fun _ => 0%Z)); exact H].
Defined.

Lemma square_mid_not_in jX jY rnd r k x y s :
  ~ In (x, y) r -> sa s = grid_point x y ->
  (sb s = grid_point (x + 1) y \/ sb s = grid_point x (y + 1)) ->
  ~ In (GetMid2 s) (map GetMid2 (square_loop jX jY rnd r k)).
Proof.
  intros Hn Ha Hb Hin. apply in_map_iff in Hin as [s' [Hm Hs']].
  destruct (square_loop_edges _ _ _ _ _ _ Hs') as (x' & y' & Hc & Ha' & Hb').
  apply Hn. revert Hm. unfold GetMid2, vadd. rewrite Ha, Ha'.
  destruct Hb as [Hb|Hb], Hb' as [[_ Hb']|[_ Hb']]; rewrite Hb, Hb'; unfold grid_point; cbn [vx vy];
    intros E; injection E; intros E1 E2;
    assert (x = x' /\ y = y') as [-> ->] by lia; exact Hc.
Qed.

Lemma square_loop_NoDup jX jY rnd cells k :
  NoDup cells -> NoDup (map GetMid2 (square_loop jX jY rnd cells k)).
Proof.
  revert k; induction cells as [|[x y] r IH]; intros k Hnd; [constructor|].
  inversion Hnd as [|? ? Hn Hr]; subst.
  cbn [square_loop]. destruct (negb (x + 1 =? jX)%nat), (negb (y + 1 =? jY)%nat); cbn [map].
  - constructor.
    + intros [E|Hin].
      * unfold GetMid2, vadd, grid_point in E. cbn [vx vy sa sb] in E. injection E. lia.
      * revert Hin. eapply square_mid_not_in; [exact Hn|reflexivity|left; reflexivity].
    + constructor; [eapply square_mid_not_in; [exact Hn|reflexivity|right; reflexivity]|apply IH, Hr].
  - constructor; [eapply square_mid_not_in; [exact Hn|reflexivity|left; reflexivity]|apply IH, Hr].
  - constructor; [eapply square_mid_not_in; [exact Hn|reflexivity|right; reflexivity]|apply IH, Hr].
  - apply IH, Hr.
Qed.

Lemma CreateSquareStrokes_NoDup_aux jX jY rnd :
  NoDup (map GetMid2 (CreateSquareStrokes jX jY rnd)).
Proof. apply square_loop_NoDup, NoDup_list_prod; apply seq_NoDup. Qed.

(** No two strokes of [CreateSquareStrokes] share a midpoint: the graph
    built from them has one node per stroke. *)
Theorem CreateSquareStrokes_mids_NoDup jX jY rnd :
  NoDup (map GetMid2 (CreateSquareStrokes jX jY rnd)).
Proof. apply CreateSquareStrokes_NoDup_aux. Qed.

(** *** RemoveStrokes *)

Lemma del_random_incl d rnd i l s : In s (del_random d rnd i l) -> In s l.
Proof.
  revert i; induction l as [|a r IH]; intros i; cbn [del_random]; [tauto|].
  destruct (rnd i <? d)%Z; [|intros [->|H]; [left; reflexivity|]]; intros; right; eauto.
Qed.

Lemma del_random_length d rnd i l : (length (del_random d rnd i l) <= length l)%nat.
Proof.
  revert i; induction l as [|a r IH]; intros i; cbn [del_random]; [reflexivity|].
  specialize (IH (S i)). destruct (rnd i <? d)%Z; cbn [length]; lia.
Qed.

Lemma del_random_none d rnd i l : (forall j, d <= rnd j)%Z -> del_random d rnd i l = l.
Proof.
  intros Hd. revert i; induction l as [|a r IH]; intros i; cbn [del_random]; [reflexivity|].
  replace (rnd i <? d)%Z with false by (symmetry; apply Z.ltb_ge, Hd). rewrite IH. reflexivity.
Qed.

Lemma del_random_NoDup_map {B} (f : Stroke -> B) d rnd i l :
  NoDup (map f l) -> NoDup (map f (del_random d rnd i l)).
Proof.
  revert i; induction l as [|a r IH]; intros i Hnd; cbn [del_random]; [exact Hnd|].
  inversion Hnd as [|? ? Hn Hr]; subst.
  destruct (rnd i <? d)%Z; [apply IH, Hr|]. cbn [map]. constructor; [|apply IH, Hr].
  rewrite in_map_iff. intros [s [Hs Hin]]. apply Hn, in_map_iff. exists s.
  split; [exact Hs|]. eapply del_random_incl; exact Hin.
Qed.

Lemma filter_NoDup_map {A B} (f : A -> B) (g : A -> bool) l :
  NoDup (map f l) -> NoDup (map f (filter g l)).
Proof.
  induction l as [|a r IH]; intros Hnd; cbn [filter]; [exact Hnd|].
  inversion Hnd as [|? ? Hn Hr]; subst.
  destruct (g a); [|apply IH, Hr]. cbn [map]. constructor; [|apply IH, Hr].
  rewrite in_map_iff. intros [s [Hs Hin]]. apply Hn, in_map_iff. exists s.
  split; [exact Hs|]. apply filter_In in Hin. apply Hin.
Qed.

Lemma RemoveStrokes_incl_aux d rnd input s :
  In s (RemoveStrokes d rnd input) -> In s input.
Proof.
  unfold RemoveStrokes. intros Hin. apply filter_In in Hin as [Hin _].
  eapply del_random_incl; exact Hin.
Qed.

(** [RemoveStrokes] only erases: every stroke it returns is a stroke of
    its input, and it returns no more strokes than it was given. *)
Theorem RemoveStrokes_incl d rnd input :
  incl (RemoveStrokes d rnd input) input /\
  (length (RemoveStrokes d rnd input) <= length input)%nat.
Proof.
  split; [intros s; apply RemoveStrokes_incl_aux|].
  unfold RemoveStrokes. etransitivity; [apply filter_length_le|apply del_random_length].
Qed.

Lemma RemoveStrokes_NoDup_mids d rnd input :
  NoDup (map GetMid2 input) -> NoDup (map GetMid2 (RemoveStrokes d rnd input)).
Proof. intros H. apply filter_NoDup_map, del_random_NoDup_map, H. Qed.

Lemma count_ends_in s l p :
  In s l -> In p [sa s; sb s] -> (1 <= count_occ vec2_dec (stroke_ends l) p)%nat.
Proof.
  intros Hs Hp. apply count_occ_In. unfold stroke_ends. apply in_flat_map. eauto.
Qed.

Lemma count_ends_cons_ge a r p :
  (count_occ vec2_dec (stroke_ends r) p <= count_occ vec2_dec (stroke_ends (a :: r)) p)%nat.
Proof.
  unfold stroke_ends. cbn [flat_map app count_occ].
  destruct (vec2_dec (sa a) p), (vec2_dec (sb a) p); lia.
Qed.

Lemma count_ends_cons_in a r p :
  In p [sa a; sb a] ->
  (S (count_occ vec2_dec (stroke_ends r) p) <= count_occ vec2_dec (stroke_ends (a :: r)) p)%nat.
Proof.
  intros Hp. unfold stroke_ends. cbn [flat_map app count_occ].
  destruct (vec2_dec (sa a) p), (vec2_dec (sb a) p); try lia.
  destruct Hp as [E|[E|[]]]; congruence.
Qed.

(** Two different strokes of a list with an end [p] each give [p] two
    entries in the end count. *)
Lemma count_ends_two l s1 s2 p :
  In s1 l -> In s2 l -> s1 <> s2 -> In p [sa s1; sb s1] -> In p [sa s2; sb s2] ->
  (2 <= count_occ vec2_dec (stroke_ends l) p)%nat.
Proof.
  induction l as [|a r IH]; intros H1 H2 Hne Hp1 Hp2; [contradiction|].
  destruct H1 as [<-|H1], H2 as [<-|H2].
  - congruence.
  - pose proof (count_ends_in _ _ _ H2 Hp2). pose proof (count_ends_cons_in a r p Hp1). lia.
  - pose proof (count_ends_in _ _ _ H1 Hp1). pose proof (count_ends_cons_in a r p Hp2). lia.
  - pose proof (IH H1 H2 Hne Hp1 Hp2). pose proof (count_ends_cons_ge a r p). lia.
Qed.

Lemma square_loop_complete_h jX jY rnd cells k x y :
  In (x, y) cells -> (x + 1 <> jX)%nat ->
  exists t, In (MkStroke (grid_point x y) (grid_point (x + 1) y) t) (square_loop jX jY rnd cells k).
Proof.
  revert k; induction cells as [|[x' y'] r IH]; intros k Hc Hx; [contradiction|].
  cbn [square_loop]. destruct Hc as [E|Hc].
  - injection E as -> ->. replace (x + 1 =? jX)%nat with false by (symmetry; apply Nat.eqb_neq, Hx).
    cbn [negb]. destruct (negb (y + 1 =? jY)%nat); eexists; left; reflexivity.
  - destruct (negb (x' + 1 =? jX)%nat), (negb (y' + 1 =? jY)%nat);
      first [ destruct (IH (S (S k)) Hc Hx) as [t Ht]; exists t; cbn [In]; tauto
            | destruct (IH (S k) Hc Hx) as [t Ht]; exists t; cbn [In]; tauto
            | destruct (IH k Hc Hx) as [t Ht]; exists t; cbn [In]; tauto ].
Qed.

Lemma square_loop_complete_v jX jY rnd cells k x y :
  In (x, y) cells -> (y + 1 <> jY)%nat ->
  exists t, In (MkStroke (grid_point x y) (grid_point x (y + 1)) t) (square_loop jX jY rnd cells k).
Proof.
  revert k; induction cells as [|[x' y'] r IH]; intros k Hc Hy; [contradiction|].
  cbn [square_loop]. destruct Hc as [E|Hc].
  - injection E as -> ->. replace (y + 1 =? jY)%nat with false by (symmetry; apply Nat.eqb_neq, Hy).
    cbn [negb]. destruct (negb (x + 1 =? jX)%nat); eexists; [right|]; left; reflexivity.
  - destruct (negb (x' + 1 =? jX)%nat), (negb (y' + 1 =? jY)%nat);
      first [ destruct (IH (S (S k)) Hc Hy) as [t Ht]; exists t; cbn [In]; tauto
            | destruct (IH (S k) Hc Hy) as [t Ht]; exists t; cbn [In]; tauto
            | destruct (IH k Hc Hy) as [t Ht]; exists t; cbn [In]; tauto ].
Qed.

Lemma square_cells_In jX jY x y :
  (1 <= x < jX)%nat -> (1 <= y < jY)%nat ->
  In (x, y) (list_prod (seq 1 (jX - 1)) (seq 1 (jY - 1))).
Proof. intros. apply in_prod_iff. rewrite !in_seq. lia. Qed.

(** In a grid with at least two junctions per row and column, every
    junction is an end of two different strokes, one horizontal and one
    vertical. *)
Lemma grid_junction_degree jX jY rnd x y :
  (3 <= jX)%nat -> (3 <= jY)%nat -> (1 <= x < jX)%nat -> (1 <= y < jY)%nat ->
  (2 <= count_occ vec2_dec (stroke_ends (CreateSquareStrokes jX jY rnd)) (grid_point x y))%nat.
Proof.
  intros HX HY Hx Hy. unfold CreateSquareStrokes.
  assert (Hh : exists s, In s (square_loop jX jY rnd (list_prod (seq 1 (jX - 1)) (seq 1 (jY - 1))) 0) /\
                         In (grid_point x y) [sa s; sb s] /\ vy (sa s) = vy (sb s)).
  { destruct (Nat.eq_dec (x + 1) jX) as [E|E].
    - destruct (square_loop_complete_h jX jY rnd (list_prod (seq 1 (jX - 1)) (seq 1 (jY - 1))) 0 (x - 1) y)
        as [t Ht]; [apply square_cells_In; lia|lia|].
      replace (x - 1 + 1)%nat with x in Ht by lia.
      eexists; split; [exact Ht|]. cbn. split; [tauto|reflexivity].
    - destruct (square_loop_complete_h jX jY rnd (list_prod (seq 1 (jX - 1)) (seq 1 (jY - 1))) 0 x y)
        as [t Ht]; [apply square_cells_In; lia|exact E|].
      eexists; split; [exact Ht|]. cbn. split; [tauto|reflexivity]. }
  assert (Hv : exists s, In s (square_loop jX jY rnd (list_prod (seq 1 (jX - 1)) (seq 1 (jY - 1))) 0) /\
                         In (grid_point x y) [sa s; sb s] /\ vy (sb s) = (vy (sa s) + 1)%Z).
  { destruct (Nat.eq_dec (y + 1) jY) as [E|E].
    - destruct (square_loop_complete_v jX jY rnd (list_prod (seq 1 (jX - 1)) (seq 1 (jY - 1))) 0 x (y - 1))
        as [t Ht]; [apply square_cells_In; lia|lia|].
      replace (y - 1 + 1)%nat with y in Ht by lia.
      eexists; split; [exact Ht|]. cbn. split; [tauto|lia].
    - destruct (square_loop_complete_v jX jY rnd (list_prod (seq 1 (jX - 1)) (seq 1 (jY - 1))) 0 x y)
        as [t Ht]; [apply square_cells_In; lia|exact E|].
      eexists; split; [exact Ht|]. cbn. split; [tauto|lia]. }
  destruct Hh as (s1 & H1 & Hp1 & E1), Hv as (s2 & H2 & Hp2 & E2).
  apply (count_ends_two _ s1 s2); auto.
  intros ->. lia.
Qed.

Lemma grid_ends_range jX jY rnd s p :
  In s (CreateSquareStrokes jX jY rnd) -> In p [sa s; sb s] ->
  exists x y, p = grid_point x y /\ (1 <= x < jX)%nat /\ (1 <= y < jY)%nat.
Proof.
  intros Hs Hp. destruct (square_loop_edges _ _ _ _ _ _ Hs) as (x & y & Hc & Ha & Hb).
  apply square_cells_range in Hc.
  destruct Hp as [<-|[<-|[]]].
  - exists x, y. split; [exact Ha|lia].
  - destruct Hb as [[Hx Hb]|[Hy Hb]]; rewrite Hb; eexists _, _; (split; [reflexivity|lia]).
Qed.

Lemma RemoveStrokes_grid_aux jX jY rnd d rnd' :
  (3 <= jX)%nat -> (3 <= jY)%nat -> (forall i, d <= rnd' i)%Z ->
  RemoveStrokes d rnd' (CreateSquareStrokes jX jY rnd) = CreateSquareStrokes jX jY rnd.
Proof.
  intros HX HY Hd. unfold RemoveStrokes. rewrite del_random_none by exact Hd.
  apply filter_keep_all. intros s Hs.
  assert (Hc : forall p, In p [sa s; sb s] ->
             (2 <= count_occ vec2_dec (stroke_ends (CreateSquareStrokes jX jY rnd)) p)%nat).
  { intros p Hp. destruct (grid_ends_range _ _ _ _ _ Hs Hp) as (x & y & -> & Hx & Hy).
    apply grid_junction_degree; assumption. }
  pose proof (Hc (sa s) (or_introl eq_refl)) as Ha.
  pose proof (Hc (sb s) (or_intror (or_introl eq_refl))) as Hb.
  apply negb_true_iff, orb_false_iff. split; apply Nat.eqb_neq; lia.
Qed.

(** With at least three junctions along each axis every junction of the
    square grid has a horizontal and a vertical stroke, so when no draw
    falls below [delThres] [RemoveStrokes] returns the grid unchanged. *)
Theorem RemoveStrokes_grid_unchanged jX jY rnd d rnd' :
  (3 <= jX)%nat -> (3 <= jY)%nat -> (forall i, d <= rnd' i)%Z ->
  RemoveStrokes d rnd' (CreateSquareStrokes jX jY rnd) = CreateSquareStrokes jX jY rnd.
Proof. apply RemoveStrokes_grid_aux. Qed.

Lemma RemoveStrokes_grid_unchanged_witness :
  (3 <= 3)%nat /\ (3 <= 4)%nat /\ (forall i : nat, 0 <= (fun _ => 5%Z) i)%Z /\
  RemoveStrokes 0 (fun _ => 5%Z) (CreateSquareStrokes 3 4 (fun _ => 0%Z)) =
  CreateSquareStrokes 3 4 (fun _ => 0%Z).
Proof.
  split; [lia|]. split; [lia|]. split; [intros i; simpl; lia|].
  apply (RemoveStrokes_grid_unchanged 3 4 (fun _ => 0%Z) 0 (fun _ => 5%Z)); [lia|lia|intros i; simpl; lia].
Defined.

(** *** The strokes of the saver through [CreateThread] *)

(** The strokes the saver hands to [CreateThread], a square grid thinned
    by [RemoveStrokes], never share a midpoint: the run consumes exactly
    four ports per stroke, and yields at most two threads per stroke. *)
Theorem saver_strokes_ports alloc jX jY rnd d rnd' :
  let sl := RemoveStrokes d rnd' (CreateSquareStrokes jX jY rnd) in
  exists log,
    CreateThread alloc sl = Ok (MkArt (map make_thread log) (map make_z log)) /\
    length (flat_map consumed log) = (4 * length sl)%nat /\
    (GetThreadCount (MkArt (map make_thread log) (map make_z log)) <= 2 * length sl)%nat.
Proof.
  intros sl.
  assert (Hnd : NoDup (map GetMid2 sl))
    by (apply RemoveStrokes_NoDup_mids, CreateSquareStrokes_NoDup_aux).
  destruct (run_graph_ports alloc sl) as [log [Hc [Hf Hl]]].
  rewrite nodup_fixed_point, length_map in Hl by exact Hnd.
  exists log. split; [exact Hc|]. split; [exact Hl|].
  unfold GetThreadCount. cbn [mThreads]. rewrite length_map.
  pose proof (flat_map_consumed_ge log Hf). lia.
Qed.
